(** * ARP4G-mongodb: the lease-based mutex protocol and the entity store

    A shallow embedding of [mongorepo/mongodb.go].  The document store is
    not part of the repository; it is modelled by the interface the code
    relies on: a collection is a finite map from [_id] to a document, a
    round trip either fails with a driver error and leaves the collection
    as it was, or is applied atomically.  Every round trip is appended to a
    log, so that statements can speak about what was sent to the store.

    A call that the server applied and that failed all the same is not
    modelled; what is stated about the collection after a call that
    returned an error of the store holds whether or not the server had
    applied it.  The encoding of the driver is modelled where a statement
    depends on it ([encode_uint64], [Lock_encoded]). *)

From stdpp Require Import gmap strings list fin_maps relations.
From Stdlib Require Import ZArith Lia.
From Stdlib.Strings Require Byte.

Local Open Scope Z_scope.

#[local] Set Warnings "-register-all".

(** ** Driver errors *)

(** [mongo.WriteError]: only the fields [isDup] reads. *)
Record WriteError := mkWriteError { Code : Z; Message : string }.

(** Go [error] values as the driver produces them.  [ErrNoDocuments] is
    the sentinel compared with [==]; [WriteException] is the type
    [errors.As] looks for; [Wrapped] is an error with an [Unwrap] method;
    [OtherError] is any transport or driver fault. *)
Inductive error :=
| ErrNoDocuments
| WriteException (WriteErrors : list WriteError)
| OtherError (msg : string)
| Wrapped (msg : string) (inner : error).

(** [err == mongo.ErrNoDocuments] *)
Definition is_ErrNoDocuments (err : error) : bool :=
  match err with ErrNoDocuments => true | _ => false end.

(** [errors.As(err, &e)] for [e] of type [mongo.WriteException]: the first
    error of the chain with that type. *)
Fixpoint errors_As_WriteException (err : error) : option (list WriteError) :=
  match err with
  | WriteException wes => Some wes
  | Wrapped _ inner => errors_As_WriteException inner
  | _ => None
  end.

(** ** 64-bit unsigned arithmetic *)

Definition u64_modulus : Z := 2 ^ 64.

(** The conversion [uint64(x)] of an [int64]. *)
Definition uint64 (x : Z) : Z := x mod u64_modulus.

(** [a - b] on [uint64]. *)
Definition u64_sub (a b : Z) : Z := (a - b) mod u64_modulus.

(** The largest [int64]. *)
Definition MaxInt64 : Z := 2 ^ 63 - 1.

(** The driver named in [go.mod] (mongo-driver v1.10.2) writes a [uint64]
    as a BSON int64 and refuses a value above [MaxInt64]: the error of
    encoding [v], if there is one. *)
Definition encode_uint64 (v : Z) : option error :=
  if MaxInt64 <? v then Some (OtherError "overflows int64") else None.

(** ** Lock records, filters and updates *)

(** The document [{_id, state, time}]; [_id] is the key of the collection. *)
Record LockDoc := mkLockDoc { state : Z; time : Z }.

(** One assignment of a [$set] update. *)
Inductive SetField :=
| Set_state (v : Z)
| Set_time (v : Z).

Definition set_field (d : LockDoc) (a : SetField) : LockDoc :=
  match a with
  | Set_state v => {| state := v; time := time d |}
  | Set_time v => {| state := state d; time := v |}
  end.

(** [{"$set", fields}] applied to a document, fields in order. *)
Definition apply_set (fields : list SetField) (d : LockDoc) : LockDoc :=
  foldl set_field d fields.

(** ** MongodbStore *)

Section Store.

Context {Id : Type} `{Countable Id}.

(** [Value] stands for the BSON values, [T] for the entity type of
    [MongodbStore[T]]. *)
Context {Value T : Type}.

(** [bson.D]; the nil document is [[]]. *)
Definition bsonD : Type := list (string * Value).

(** [mongo.SingleResult]: the error of the query, or the document found. *)
Record SingleResult := mkSingleResult { sr_err : option error; sr_rdr : bsonD }.

Definition SingleResult_Err (sr : SingleResult) : option error := sr_err sr.

(** [sr.Decode(&v)]: with an error in the result, [v] is left as it was. *)
Definition SingleResult_Decode (sr : SingleResult) (v : bsonD) : bsonD * option error :=
  match sr_err sr with
  | Some e => (v, Some e)
  | None => (sr_rdr sr, None)
  end.

(** [coll.FindOne(ctx, {"_id", id})] on the entity collection; [fault] is
    what the driver reports for this round trip. *)
Definition Store_FindOne (docs : gmap Id bsonD) (fault : option error) (id : Id)
  : SingleResult :=
  match fault with
  | Some e => mkSingleResult (Some e) []
  | None =>
      match docs !! id with
      | Some d => mkSingleResult None d
      | None => mkSingleResult (Some ErrNoDocuments) []
      end
  end.

(** The codec of the driver and the constructor of the store: [zero_T] is
    Go's zero value of [T], [newZeroEntity] what [store.newZeroEntity()]
    returns; [bson.Unmarshal] fills the entity and its error is dropped. *)
Variable zero_T : T.
Variable newZeroEntity : T.
Variable bson_Marshal : bsonD → list Byte.byte + error.
Variable bson_Unmarshal : list Byte.byte → T → T.

(** [Load]: the result is [(entity, found, err)]. *)
Definition Load (docs : gmap Id bsonD) (fault : option error) (id : Id)
  : T * bool * option error :=
  let entity := zero_T in
  let sr := Store_FindOne docs fault id in
  let err := SingleResult_Err sr in
  if match err with Some e => is_ErrNoDocuments e | None => false end
  then (entity, false, None)
  else
    let result : bsonD := [] in
    let result := (SingleResult_Decode sr result).1 in
    match bson_Marshal result with
    | inr err => (entity, false, Some err)
    | inl doc =>
        let entity := newZeroEntity in
        (bson_Unmarshal doc entity, true, None)
    end.

End Store.

(** ** The writes of the store, and the queries of the repository

    For these the server is not modelled: a round trip is logged and
    answers with the next outcome of a script (no error past its end). *)

Section StoreOps.

Context {Id Value T : Type}.

(** What is sent to the entity collection. *)
Inductive StoreRequest :=
| SReqInsertOne (entity : T)
| SReqInsertMany (entities : list T)
| SReqReplaceOne (id : Id) (entity : T)     (* filter {"_id", id} *)
| SReqDeleteOne (id : Id).                   (* filter {"_id", id} *)

Record StoreWorld := mkStoreWorld {
  sw_log : list StoreRequest;
  sw_pending : list (option error)
}.

(** One round trip: the error of the call. *)
Definition store_call (req : StoreRequest) (w : StoreWorld) : option error * StoreWorld :=
  (match sw_pending w with [] => None | outcome :: _ => outcome end,
   mkStoreWorld (sw_log w ++ [req]) (tail (sw_pending w))).

Definition Save (id : Id) (entity : T) (w : StoreWorld) : option error * StoreWorld :=
  store_call (SReqInsertOne entity) w.

(** The loop over [entitiesToUpdate] of [SaveAll]. *)
Fixpoint SaveAll_updates (entitiesToUpdate : list (Id * T)) (w : StoreWorld)
  : option error * StoreWorld :=
  match entitiesToUpdate with
  | [] => (None, w)
  | (k, v) :: rest =>
      match store_call (SReqReplaceOne k v) w with
      | (Some err, w') => (Some err, w')
      | (None, w') => SaveAll_updates rest w'
      end
  end.

(** [SaveAll]; the two Go maps are given as the lists of their entries in
    the order the runtime iterates them, an entry of [entitiesToUpdate]
    with the entity that [v.Entity()] returns. *)
Definition SaveAll (entitiesToInsert entitiesToUpdate : list (Id * T)) (w : StoreWorld)
  : option error * StoreWorld :=
  let toInsert := map snd entitiesToInsert in
  if (0 <? length toInsert)%nat then
    match store_call (SReqInsertMany toInsert) w with
    | (Some err, w') => (Some err, w')
    | (None, w') => SaveAll_updates entitiesToUpdate w'
    end
  else SaveAll_updates entitiesToUpdate w.

Fixpoint RemoveAll (ids : list Id) (w : StoreWorld) : option error * StoreWorld :=
  match ids with
  | [] => (None, w)
  | id :: rest =>
      match store_call (SReqDeleteOne id) w with
      | (Some err, w') => (Some err, w')
      | (None, w') => RemoveAll rest w'
      end
  end.

(** Requests sent one after the other, up to the first that fails. *)
Fixpoint call_each (reqs : list StoreRequest) (w : StoreWorld) : option error * StoreWorld :=
  match reqs with
  | [] => (None, w)
  | req :: rest =>
      match store_call req w with
      | (Some err, w') => (Some err, w')
      | (None, w') => call_each rest w'
      end
  end.

(** The requests [SaveAll] has to send when none fails. *)
Definition SaveAll_plan (entitiesToInsert entitiesToUpdate : list (Id * T))
  : list StoreRequest :=
  match entitiesToInsert with
  | [] => []
  | _ :: _ => [SReqInsertMany (map snd entitiesToInsert)]
  end ++ map (λ kv, SReqReplaceOne kv.1 kv.2) entitiesToUpdate.

(** The answer of [coll.Find] followed by [cursor.All]: the error of the
    one or of the other, or the documents. *)
Inductive FindAnswer :=
| Find_error (err : error)
| All_error (err : error)
| All_docs (results : list (bsonD (Value := Value))).

(** The codec and the constructor, as for [Load]; [bson_Marshal_int] is
    [bson.Marshal] of an [int], and [first_field] is
    [reflect.ValueOf(entity).Elem().Field(0).Interface()]. *)
Variable newZeroEntity : T.
Variable bson_Marshal : bsonD (Value := Value) → list Byte.byte + error.
Variable bson_Marshal_int : Z → list Byte.byte + error.
Variable bson_Unmarshal : list Byte.byte → T → T.
Variable first_field : T → Id.

(** The loop of [QueryAllByField]; a nil slice is [None]. *)
Fixpoint QueryAllByField_loop (results : list (bsonD (Value := Value))) (entities : list T)
  : option (list T) * option error :=
  match results with
  | [] => (Some entities, None)
  | result :: rest =>
      match bson_Marshal result with
      | inr err => (None, Some err)
      | inl doc =>
          let entity := bson_Unmarshal doc newZeroEntity in
          QueryAllByField_loop rest (entities ++ [entity])
      end
  end.

(** [QueryAllByField]; [coll] is [None] for a nil collection and otherwise
    gives the answer to the query [{fieldName, fieldValue}]. *)
Definition QueryAllByField (coll : option (string → Value → FindAnswer))
    (fieldName : string) (fieldValue : Value) : option (list T) * option error :=
  match coll with
  | None => (None, None)
  | Some find =>
      match find fieldName fieldValue with
      | Find_error err => (None, Some err)
      | All_error err => (None, Some err)
      | All_docs results => QueryAllByField_loop results []
      end
  end.

(** The loop of [QueryAllIds]: [for result := range results] binds
    [result] to the index, and it is the index that is marshalled. *)
Fixpoint QueryAllIds_loop (indices : list nat) (ids : list Id)
  : option (list Id) * option error :=
  match indices with
  | [] => (Some ids, None)
  | result :: rest =>
      match bson_Marshal_int (Z.of_nat result) with
      | inr err => (None, Some err)
      | inl doc =>
          let entity := bson_Unmarshal doc newZeroEntity in
          QueryAllIds_loop rest (ids ++ [first_field entity])
      end
  end.

(** [QueryAllIds]; [coll] is [None] for a nil collection and otherwise the
    answer to the query for all documents. *)
Definition QueryAllIds (coll : option FindAnswer) : option (list Id) * option error :=
  match coll with
  | None => (None, None)
  | Some answer =>
      match answer with
      | Find_error err => (None, Some err)
      | All_error err => (None, Some err)
      | All_docs results => QueryAllIds_loop (seq 0 (length results)) []
      end
  end.

(** What decoding a document gives when it can be marshalled. *)
Definition decoded (result : bsonD (Value := Value)) : T :=
  match bson_Marshal result with
  | inl doc => bson_Unmarshal doc newZeroEntity
  | inr _ => newZeroEntity
  end.

(** [Count]; [coll] is [None] for a nil collection and otherwise the
    answer of [EstimatedDocumentCount], an [int64] and an error. *)
Definition Count (coll : option (Z * option error)) : Z * option error :=
  match coll with
  | None => (0, None)
  | Some (count, err) => (uint64 count, err)
  end.

End StoreOps.

(** The name of the collection [NewMongodbMutexes] keeps the lock records
    of [collection] in. *)
Definition mutexes_collection (collection : string) : string :=
  ("mutexes_" ++ collection)%string.

(** ** The mutex collection *)

Section Mutexes.

Context {Id : Type} `{Countable Id}.

(** The query documents the code builds. *)
Inductive Filter :=
| F_id (id : Id)                (* {"_id", id} *)
| F_state (v : Z)               (* {"state", v} *)
| F_time_lt (v : Z)             (* {"time", {"$lt", v}} *)
| F_and (fs : list Filter)      (* {"$and", bson.A{...}} *)
| F_or (fs : list Filter).      (* {"$or", bson.A{...}} *)

Fixpoint matches (f : Filter) (k : Id) (d : LockDoc) : bool :=
  match f with
  | F_id id => bool_decide (k = id)
  | F_state v => state d =? v
  | F_time_lt v => time d <? v
  | F_and fs => forallb (fun g => matches g k d) fs
  | F_or fs => existsb (fun g => matches g k d) fs
  end.

(** What is sent to the store in one round trip. *)
Inductive Request :=
| ReqFindOneAndUpdate (filter : Filter) (update : list SetField)
| ReqFindOne (filter : Filter)
| ReqInsertOne (id : Id) (doc : LockDoc)
| ReqUpdateOne (filter : Filter) (update : list SetField).

(** What the environment does to one round trip: the wall clock advances
    by [ev_elapsed] milliseconds and the driver may report [ev_fault]. *)
Record Event := mkEvent { ev_elapsed : Z; ev_fault : option error }.

(** The world a caller runs in: the mutex collection, the wall clock in
    milliseconds since the epoch, the round trips made so far with the
    time each was issued at (oldest first), and the script of the
    environment for the round trips to come (past its end, round trips
    take no time and do not fail). *)
Record World := mkWorld {
  coll : gmap Id LockDoc;
  clock : Z;
  log : list (Z * Request);
  pending : list Event
}.

(** State passing over the world. *)
Definition M (A : Type) : Type := World → A * World.

Definition ret {A : Type} (x : A) : M A := λ w, (x, w).

Definition bind {A B : Type} (m : M A) (f : A → M B) : M B := λ w,
  let '(x, w') := m w in f x w'.

#[local] Notation "'let*' x := m 'in' k" := (bind m (λ x, k))
  (at level 10, x pattern, m at level 100, k at level 200).

(** [time.Now().UnixMilli()] *)
Definition time_Now_UnixMilli : M Z := λ w, (clock w, w).

Definition next_event (w : World) : Event :=
  match pending w with
  | [] => mkEvent 0 None
  | ev :: _ => ev
  end.

(** One round trip: log the request, let the environment act, and report
    the fault if there is one. *)
Definition round_trip (req : Request) : M (option error) := λ w,
  let ev := next_event w in
  (ev_fault ev,
   mkWorld (coll w) (clock w + ev_elapsed ev) (log w ++ [(clock w, req)])
           (tail (pending w))).

Definition get_coll : M (gmap Id LockDoc) := λ w, (coll w, w).

Definition put_coll (c : gmap Id LockDoc) : M unit := λ w,
  (tt, mkWorld c (clock w) (log w) (pending w)).

(** The first document of the collection that matches the filter. *)
Definition find_one (filter : Filter) (c : gmap Id LockDoc) : option (Id * LockDoc) :=
  List.find (λ kd, matches filter kd.1 kd.2) (map_to_list c).

(** [coll.FindOneAndUpdate(ctx, filter, {"$set", fields}).Decode(&doc)]:
    the error of the call, [ErrNoDocuments] when nothing matches. *)
Definition FindOneAndUpdate (filter : Filter) (update : list SetField) : M (option error) :=
  let* fault := round_trip (ReqFindOneAndUpdate filter update) in
  match fault with
  | Some e => ret (Some e)
  | None =>
      let* c := get_coll in
      match find_one filter c with
      | None => ret (Some ErrNoDocuments)
      | Some (k, d) => let* _ := put_coll (<[k := apply_set update d]> c) in ret None
      end
  end.

(** [coll.FindOne(ctx, filter).Decode(&doc)] *)
Definition FindOne (filter : Filter) : M (option error) :=
  let* fault := round_trip (ReqFindOne filter) in
  match fault with
  | Some e => ret (Some e)
  | None =>
      let* c := get_coll in
      match find_one filter c with
      | None => ret (Some ErrNoDocuments)
      | Some _ => ret None
      end
  end.

(** The store's answer to an insert whose [_id] is taken. *)
Definition duplicate_key_error : error :=
  WriteException [mkWriteError 11000 "E11000 duplicate key error"].

(** [coll.InsertOne(ctx, {_id, state, time})] *)
Definition InsertOne (id : Id) (doc : LockDoc) : M (option error) :=
  let* fault := round_trip (ReqInsertOne id doc) in
  match fault with
  | Some e => ret (Some e)
  | None =>
      let* c := get_coll in
      match c !! id with
      | Some _ => ret (Some duplicate_key_error)
      | None => let* _ := put_coll (<[id := doc]> c) in ret None
      end
  end.

(** [coll.UpdateOne(ctx, filter, {"$set", fields})]; no upsert. *)
Definition UpdateOne (filter : Filter) (update : list SetField) : M (option error) :=
  let* fault := round_trip (ReqUpdateOne filter update) in
  match fault with
  | Some e => ret (Some e)
  | None =>
      let* c := get_coll in
      match find_one filter c with
      | None => ret None
      | Some (k, d) => let* _ := put_coll (<[k := apply_set update d]> c) in ret None
      end
  end.

(** ** MongodbMutexes *)

(** The configuration of [MongodbMutexes]; its collection is the one of
    the world.  [lockRetryCount] is an [int], [maxLockTime] a [uint64]. *)
Record MongodbMutexes := mkMutexes { lockRetryCount : Z; maxLockTime : Z }.

Definition defaultLockRetryCount : Z := 300.
Definition defaultMaxLockTime : Z := 1 * 60 * 1000.

Definition NewMongodbMutexes : MongodbMutexes :=
  mkMutexes defaultLockRetryCount defaultMaxLockTime.

Definition tryLock_filter (id : Id) (unlockTime : Z) : Filter :=
  F_and [F_id id; F_or [F_state 0; F_time_lt unlockTime]].

Definition tryLock_update (currTime : Z) : list SetField :=
  [Set_state 1; Set_time currTime].

Definition tryLock (id : Id) (currTime unlockTime : Z) : M (bool * option error) :=
  let* err := FindOneAndUpdate (tryLock_filter id unlockTime) (tryLock_update currTime) in
  match err with
  | Some e => if is_ErrNoDocuments e then ret (false, None) else ret (false, Some e)
  | None => ret (true, None)
  end.

Definition exists_ (id : Id) : M (bool * option error) :=
  let* err := FindOne (F_id id) in
  match err with
  | Some e => if is_ErrNoDocuments e then ret (false, None) else ret (false, Some e)
  | None => ret (true, None)
  end.

(** The loop [for retryTimesLeft > 0 { ...; retryTimesLeft-- }] of [Lock],
    by recursion on the number of iterations left. *)
Fixpoint Lock_retry (id : Id) (currTime unlockTime : Z) (retryTimesLeft : nat)
  : M (bool * bool * option error) :=
  match retryTimesLeft with
  | O => ret (false, false, None)
  | S n =>
      let* (tryOneOk, err) := tryLock id currTime unlockTime in
      match err with
      | Some e => ret (false, false, Some e)
      | None =>
          if tryOneOk then ret (true, false, None)
          else Lock_retry id currTime unlockTime n
      end
  end.

(** [Lock]: the result is [(ok, absent, err)]. *)
Definition Lock (mutexes : MongodbMutexes) (id : Id) : M (bool * bool * option error) :=
  let* now := time_Now_UnixMilli in
  let currTime := uint64 now in
  let unlockTime := u64_sub currTime (maxLockTime mutexes) in
  let* (tryOneOk, err) := tryLock id currTime unlockTime in
  match err with
  | Some e => ret (false, false, Some e)
  | None =>
      if tryOneOk then ret (true, false, None)
      else
        let* (found, err) := exists_ id in
        match err with
        | Some e => ret (false, false, Some e)
        | None =>
            if negb found then ret (false, true, None)
            else Lock_retry id currTime unlockTime (Z.to_nat (lockRetryCount mutexes))
        end
  end.

(** [tryLock] with the encoding step of the driver.  The filter holds
    [unlockTime] and the update [currTime], both [uint64]; when one of
    them cannot be encoded, [FindOneAndUpdate] fails with that error
    before anything is sent, and [tryLock] returns it. *)
Definition tryLock_encoded (id : Id) (currTime unlockTime : Z) : M (bool * option error) :=
  match encode_uint64 unlockTime with
  | Some e => ret (false, Some e)
  | None =>
      match encode_uint64 currTime with
      | Some e => ret (false, Some e)
      | None => tryLock id currTime unlockTime
      end
  end.

Fixpoint Lock_retry_encoded (id : Id) (currTime unlockTime : Z) (retryTimesLeft : nat)
  : M (bool * bool * option error) :=
  match retryTimesLeft with
  | O => ret (false, false, None)
  | S n =>
      let* (tryOneOk, err) := tryLock_encoded id currTime unlockTime in
      match err with
      | Some e => ret (false, false, Some e)
      | None =>
          if tryOneOk then ret (true, false, None)
          else Lock_retry_encoded id currTime unlockTime n
      end
  end.

(** [Lock] over [tryLock_encoded]. *)
Definition Lock_encoded (mutexes : MongodbMutexes) (id : Id)
  : M (bool * bool * option error) :=
  let* now := time_Now_UnixMilli in
  let currTime := uint64 now in
  let unlockTime := u64_sub currTime (maxLockTime mutexes) in
  let* (tryOneOk, err) := tryLock_encoded id currTime unlockTime in
  match err with
  | Some e => ret (false, false, Some e)
  | None =>
      if tryOneOk then ret (true, false, None)
      else
        let* (found, err) := exists_ id in
        match err with
        | Some e => ret (false, false, Some e)
        | None =>
            if negb found then ret (false, true, None)
            else Lock_retry_encoded id currTime unlockTime
                                    (Z.to_nat (lockRetryCount mutexes))
        end
  end.

Definition isDup (err : error) : bool :=
  match errors_As_WriteException err with
  | Some wes => existsb (λ we, Code we =? 11000) wes
  | None => false
  end.

(** The error is, or wraps, a write exception with a write error of code
    11000: the store's uniqueness violation. *)
Definition has_duplicate_key (err : error) : Prop :=
  ∃ wes we, errors_As_WriteException err = Some wes ∧ we ∈ wes ∧ Code we = 11000.

Definition NewAndLock (id : Id) : M (bool * option error) :=
  let* now := time_Now_UnixMilli in
  let currTime := uint64 now in
  let* err := InsertOne id (mkLockDoc 1 currTime) in
  match err with
  | Some e => if isDup e then ret (false, None) else ret (false, Some e)
  | None => ret (true, None)
  end.

Fixpoint UnlockAll (ids : list Id) : M unit :=
  match ids with
  | [] => ret tt
  | id :: rest =>
      let* _ := UpdateOne (F_id id) [Set_state 0] in
      UnlockAll rest
  end.

(** ** [Lock] as a machine

    One step is one round trip (or the exit of the loop); between two
    steps of a caller, other callers may take theirs. *)

Inductive LockPC :=
| PC_tryOne                           (* before the first [tryLock] *)
| PC_exists                           (* before the existence probe *)
| PC_retry (retryTimesLeft : nat)     (* at the head of the loop *)
| PC_return (ok absent : bool) (err : option error).

Definition Lock_step (mutexes : MongodbMutexes) (id : Id) (currTime unlockTime : Z)
    (pc : LockPC) : M LockPC :=
  match pc with
  | PC_tryOne =>
      let* (tryOneOk, err) := tryLock id currTime unlockTime in
      match err with
      | Some e => ret (PC_return false false (Some e))
      | None => if tryOneOk then ret (PC_return true false None) else ret PC_exists
      end
  | PC_exists =>
      let* (found, err) := exists_ id in
      match err with
      | Some e => ret (PC_return false false (Some e))
      | None =>
          if negb found then ret (PC_return false true None)
          else ret (PC_retry (Z.to_nat (lockRetryCount mutexes)))
      end
  | PC_retry O => ret (PC_return false false None)
  | PC_retry (S n) =>
      let* (tryOneOk, err) := tryLock id currTime unlockTime in
      match err with
      | Some e => ret (PC_return false false (Some e))
      | None => if tryOneOk then ret (PC_return true false None) else ret (PC_retry n)
      end
  | PC_return _ _ _ => ret pc
  end.

(** A caller inside [Lock]: its configuration, the identity it locks, the
    reading of the clock it took on entry, and where it stands. *)
Record Caller := mkCaller {
  c_mutexes : MongodbMutexes;
  c_id : Id;
  c_now : Z;
  c_pc : LockPC
}.

Definition caller_currTime (c : Caller) : Z := uint64 (c_now c).

Definition caller_unlockTime (c : Caller) : Z :=
  u64_sub (caller_currTime c) (maxLockTime (c_mutexes c)).

Definition caller_step (c : Caller) : M Caller :=
  let* pc := Lock_step (c_mutexes c) (c_id c) (caller_currTime c)
                       (caller_unlockTime c) (c_pc c) in
  ret (mkCaller (c_mutexes c) (c_id c) (c_now c) pc).

(** The callers run interleaved: any one of them takes its next step. *)
Inductive sys_step : World * list Caller → World * list Caller → Prop :=
| sys_step_caller w cs1 c cs2 c' w' :
    caller_step c w = (c', w') →
    sys_step (w, cs1 ++ c :: cs2) (w', cs1 ++ c' :: cs2).

(** The caller has returned with [ok = true]. *)
Definition returned_ok (c : Caller) : bool :=
  match c_pc c with PC_return ok _ _ => ok | _ => false end.

(** The caller has returned from [Lock id] with [ok = true]. *)
Definition has_acquired (id : Id) (c : Caller) : bool :=
  bool_decide (c_id c = id) && returned_ok c.

(** How many callers hold [id]. *)
Definition acquired_count (id : Id) (cs : list Caller) : nat :=
  length (List.filter (has_acquired id) cs).

(** A caller running alone: [fuel] steps of the machine. *)
Fixpoint Lock_run (fuel : nat) (mutexes : MongodbMutexes) (id : Id)
    (currTime unlockTime : Z) (pc : LockPC) : M LockPC :=
  match fuel with
  | O => ret pc
  | S fuel' =>
      let* pc' := Lock_step mutexes id currTime unlockTime pc in
      Lock_run fuel' mutexes id currTime unlockTime pc'
  end.

(** No caller of [Lock id] takes a timestamp written by one of them for
    stale. *)
Definition no_stale_expiry (id : Id) (cs : list Caller) : Prop :=
  ∀ a b, a ∈ cs → b ∈ cs → c_id a = id → c_id b = id →
         ¬ caller_currTime a < caller_unlockTime b.

(** ** The operations on the mutex collection *)

Inductive Op :=
| Op_Lock (mutexes : MongodbMutexes) (id : Id)
| Op_NewAndLock (id : Id)
| Op_UnlockAll (ids : list Id).

Definition run_op (op : Op) (w : World) : World :=
  match op with
  | Op_Lock mutexes id => (Lock mutexes id w).2
  | Op_NewAndLock id => (NewAndLock id w).2
  | Op_UnlockAll ids => (UnlockAll ids w).2
  end.

(** The script of the environment reports no fault. *)
Definition fault_free (evs : list Event) : bool :=
  forallb (λ ev, match ev_fault ev with None => true | Some _ => false end) evs.

(** The condition of [tryLock]'s filter on a document with the right id. *)
Definition acquirable (unlockTime : Z) (d : LockDoc) : bool :=
  (state d =? 0) || (time d <? unlockTime).

(** The collection holds a document with this id. *)
Definition present (id : Id) (c : gmap Id LockDoc) : bool :=
  match c !! id with Some _ => true | None => false end.

Definition with_coll (c : gmap Id LockDoc) (w : World) : World :=
  mkWorld c (clock w) (log w) (pending w).

(** The world after the environment's part of a round trip. *)
Definition sent (req : Request) (w : World) : World := (round_trip req w).2.

(** What [Lock] computes on entry. *)
Definition entry_currTime (w : World) : Z := uint64 (clock w).

Definition entry_unlockTime (mutexes : MongodbMutexes) (w : World) : Z :=
  u64_sub (entry_currTime w) (maxLockTime mutexes).

Definition tryLock_request (id : Id) (currTime unlockTime : Z) : Request :=
  ReqFindOneAndUpdate (tryLock_filter id unlockTime) (tryLock_update currTime).

(** What a call can do to the collection: nothing, or the transition to
    LOCKED of a record that was free or stale. *)
Definition locks (id : Id) (currTime unlockTime : Z)
    (c c' : gmap Id LockDoc) : Prop :=
  ∃ d, c !! id = Some d ∧ acquirable unlockTime d = true ∧
       c' = <[id := mkLockDoc 1 currTime]> c.

(** While some caller holds [id], its record is LOCKED and carries the
    clock reading of one of the callers of [Lock id]. *)
Definition lock_inv (id : Id) (w : World) (cs : list Caller) : Prop :=
  acquired_count id cs = O ∨
  (acquired_count id cs = 1%nat ∧
   ∃ d a, coll w !! id = Some d ∧ state d = 1 ∧
          a ∈ cs ∧ c_id a = id ∧ time d = caller_currTime a).

End Mutexes.


(** ** Scenarios

    Concrete worlds over string identities, for the examples at the end. *)

Module Scenario.

Definition order42 : string := "order-42".

(** A collection with one record. *)
Definition one_record (d : LockDoc) : gmap string LockDoc := {[ order42 := d ]}.

(** A world with one record, a clock reading and a script. *)
Definition world_with (d : LockDoc) (now : Z) (evs : list Event) : World :=
  mkWorld (one_record d) now [] evs.

(** A world without any record. *)
Definition empty_world (now : Z) (evs : list Event) : World (Id := string) :=
  mkWorld ∅ now [] evs.

(** Round trips of 300 ms each, without faults. *)
Definition slow (n : nat) : list Event := replicate n (mkEvent 300 None).

(** A small configuration: three retries, leases of one second. *)
Definition three_retries : MongodbMutexes := mkMutexes 3 1000.

(** Two callers of [Lock order42] that read the same clock. *)
Definition caller_at (now : Z) : Caller (Id := string) :=
  mkCaller NewMongodbMutexes order42 now PC_tryOne.

(** An entity store whose entities are the documents themselves and whose
    codec never fails. *)
Definition sample_Marshal (d : bsonD (Value := Z)) : list Byte.byte + error := inl [].

Definition sample_Unmarshal (doc : list Byte.byte) (entity : list (string * Z))
  : list (string * Z) := entity.

Definition sample_Load (fault : option error) (id : string)
  : list (string * Z) * bool * option error :=
  Load (T := list (string * Z)) [] [("_id", 0)] sample_Marshal sample_Unmarshal
       (∅ : gmap string (bsonD (Value := Z))) fault id.

(** A codec that refuses the empty document. *)
Definition picky_Marshal (d : bsonD (Value := Z)) : list Byte.byte + error :=
  match d with
  | [] => inr (OtherError "empty document")
  | _ :: _ => inl []
  end.

(** [bson.Marshal] of an [int]: the driver refuses what is not a
    document. *)
Definition int_Marshal (i : Z) : list Byte.byte + error :=
  inr (OtherError "an int is not a document").

(** The store of [sample_Load] with the codec that refuses the empty
    document. *)
Definition picky_Load (fault : option error) (id : string)
  : list (string * Z) * bool * option error :=
  Load (T := list (string * Z)) [] [("_id", 0)] picky_Marshal sample_Unmarshal
       (∅ : gmap string (bsonD (Value := Z))) fault id.

End Scenario.

(** ** The store primitives, as equations *)

Section MutexFacts.

Context {Id : Type} `{Countable Id}.

#[local] Abbreviation World := (World (Id := Id)).

Lemma find_one_pinned (f : Filter) (id : Id) (c : gmap Id LockDoc) :
  (∀ k d, matches f k d = true → k = id) →
  find_one f c =
    match c !! id with
    | Some d => if matches f id d then Some (id, d) else None
    | None => None
    end.
Proof.
  intros Hpin. unfold find_one.
  destruct (List.find _ (map_to_list c)) as [[k d]|] eqn:Hfind.
  - apply List.find_some in Hfind as [Hin Hm]. simpl in Hm.
    apply list_elem_of_In, elem_of_map_to_list in Hin.
    pose proof (Hpin _ _ Hm) as ->. by rewrite Hin, Hm.
  - destruct (c !! id) as [d|] eqn:Hc; [|done].
    destruct (matches f id d) eqn:Hm; [|done].
    apply elem_of_map_to_list, list_elem_of_In in Hc.
    pose proof (List.find_none _ _ Hfind _ Hc) as Hno. simpl in Hno. congruence.
Qed.

Lemma find_one_tryLock_filter (id : Id) (unlockTime : Z) (c : gmap Id LockDoc) :
  find_one (tryLock_filter id unlockTime) c =
    match c !! id with
    | Some d => if acquirable unlockTime d then Some (id, d) else None
    | None => None
    end.
Proof.
  rewrite (find_one_pinned _ id).
  - destruct (c !! id) as [d|]; [|done]. unfold acquirable. simpl.
    rewrite bool_decide_eq_true_2 by done. simpl.
    by rewrite !orb_false_r, andb_true_r.
  - intros k d. simpl. rewrite andb_true_iff. intros [Hk _].
    by apply bool_decide_eq_true in Hk.
Qed.

Lemma find_one_F_id (id : Id) (c : gmap Id LockDoc) :
  find_one (F_id id) c = (λ d, (id, d)) <$> c !! id.
Proof.
  rewrite (find_one_pinned _ id).
  - destruct (c !! id) as [d|]; [|done]. simpl.
    by rewrite bool_decide_eq_true_2.
  - intros k d. simpl. intros Hk. by apply bool_decide_eq_true in Hk.
Qed.

Lemma tryLock_eq (id : Id) (currTime unlockTime : Z) (w : World) :
  tryLock id currTime unlockTime w =
    let w1 := sent (tryLock_request id currTime unlockTime) w in
    match ev_fault (next_event w) with
    | Some e => ((false, if is_ErrNoDocuments e then None else Some e), w1)
    | None =>
        match coll w !! id with
        | Some d =>
            if acquirable unlockTime d
            then ((true, None), with_coll (<[id := mkLockDoc 1 currTime]> (coll w)) w1)
            else ((false, None), w1)
        | None => ((false, None), w1)
        end
    end.
Proof.
  unfold tryLock, FindOneAndUpdate, bind, sent, tryLock_request, round_trip, get_coll, put_coll, ret.
  simpl. destruct (ev_fault (next_event w)) as [e|].
  - by destruct (is_ErrNoDocuments e).
  - rewrite find_one_tryLock_filter. cbn. destruct (coll w !! id) as [d|]; [|done].
    by destruct (acquirable unlockTime d).
Qed.

Lemma exists_eq (id : Id) (w : World) :
  exists_ id w =
    let w1 := sent (ReqFindOne (F_id id)) w in
    match ev_fault (next_event w) with
    | Some e => ((false, if is_ErrNoDocuments e then None else Some e), w1)
    | None => ((present id (coll w), None), w1)
    end.
Proof.
  unfold exists_, FindOne, bind, sent, round_trip, get_coll, ret.
  simpl. destruct (ev_fault (next_event w)) as [e|].
  - by destruct (is_ErrNoDocuments e).
  - rewrite find_one_F_id. unfold present. cbn. by destruct (coll w !! id).
Qed.

(** *** The environment's script *)

Lemma fault_free_next (req : Request) (w : World) :
  fault_free (pending w) = true →
  ev_fault (next_event w) = None ∧ fault_free (pending (sent req w)) = true.
Proof.
  unfold next_event, sent, round_trip. cbn.
  destruct (pending w) as [|ev evs]; cbn; [done|].
  destruct (ev_fault ev); cbn; [done|]. auto.
Qed.

(** *** [Lock] in explicit state passing *)

Lemma Lock_eq (mutexes : MongodbMutexes) (id : Id) (w : World) :
  Lock mutexes id w =
    let currTime := entry_currTime w in
    let unlockTime := entry_unlockTime mutexes w in
    let '((tryOneOk, err), w1) := tryLock id currTime unlockTime w in
    match err with
    | Some e => ((false, false, Some e), w1)
    | None =>
        if tryOneOk then ((true, false, None), w1)
        else
          let '((found, err), w2) := exists_ id w1 in
          match err with
          | Some e => ((false, false, Some e), w2)
          | None =>
              if negb found then ((false, true, None), w2)
              else Lock_retry id currTime unlockTime
                              (Z.to_nat (lockRetryCount mutexes)) w2
          end
    end.
Proof.
  unfold Lock, bind, time_Now_UnixMilli, entry_unlockTime, entry_currTime. cbn.
  destruct (tryLock _ _ _ w) as [[ok [e|]] w1]; [done|].
  destruct ok; [done|].
  destruct (exists_ id w1) as [[found [e|]] w2]; [done|].
  by destruct found.
Qed.

Lemma Lock_retry_S (id : Id) (currTime unlockTime : Z) (n : nat) (w : World) :
  Lock_retry id currTime unlockTime (S n) w =
    let '((tryOneOk, err), w1) := tryLock id currTime unlockTime w in
    match err with
    | Some e => ((false, false, Some e), w1)
    | None =>
        if tryOneOk then ((true, false, None), w1)
        else Lock_retry id currTime unlockTime n w1
    end.
Proof.
  cbn. unfold bind.
  destruct (tryLock _ _ _ w) as [[ok [e|]] w1]; [done|]. by destruct ok.
Qed.

Lemma Lock_retry_cases (id : Id) (currTime unlockTime : Z) (n : nat) (w : World) :
  let r := (Lock_retry id currTime unlockTime n w).1 in
  let w' := (Lock_retry id currTime unlockTime n w).2 in
  (r = (true, false, None) ∧ locks id currTime unlockTime (coll w) (coll w')) ∨
  (r.1.1 = false ∧ coll w' = coll w).
Proof.
  revert w. induction n as [|n IH]; intros w.
  - right. done.
  - rewrite Lock_retry_S, tryLock_eq. cbn zeta.
    pose proof (IH (sent (tryLock_request id currTime unlockTime) w)) as IHw.
    destruct (ev_fault (next_event w)) as [e|].
    { destruct (is_ErrNoDocuments e); [exact IHw | by right]. }
    destruct (coll w !! id) as [d|] eqn:Hd; [|exact IHw].
    destruct (acquirable unlockTime d) eqn:Ha; [|exact IHw].
    left. split; [done|]. by exists d.
Qed.

Lemma Lock_cases (mutexes : MongodbMutexes) (id : Id) (w : World) :
  let r := (Lock mutexes id w).1 in
  let w' := (Lock mutexes id w).2 in
  (r = (true, false, None) ∧
   locks id (entry_currTime w) (entry_unlockTime mutexes w) (coll w) (coll w')) ∨
  (r.1.1 = false ∧ coll w' = coll w).
Proof.
  rewrite Lock_eq. cbn zeta. rewrite tryLock_eq. cbn zeta.
  set (cur := entry_currTime w). set (unl := entry_unlockTime mutexes w).
  set (w1 := sent (tryLock_request id cur unl) w).
  assert (Hrest : ∀ w1 : World, coll w1 = coll w →
    let x := (let '((found, err), w2) := exists_ id w1 in
              match err with
              | Some e => ((false, false, Some e), w2)
              | None => if negb found then ((false, true, None), w2)
                        else Lock_retry id cur unl (Z.to_nat (lockRetryCount mutexes)) w2
              end) in
    (x.1 = (true, false, None) ∧ locks id cur unl (coll w) (coll x.2)) ∨
    (x.1.1.1 = false ∧ coll x.2 = coll w)).
  { intros v Hv. rewrite exists_eq. cbn zeta.
    destruct (ev_fault (next_event v)) as [e|].
    - right. rewrite <- Hv. by destruct (is_ErrNoDocuments e).
    - destruct (present id (coll v)); cbn; [|by right].
      rewrite <- Hv.
      apply (Lock_retry_cases id cur unl _ (sent (ReqFindOne (F_id id)) v)). }
  destruct (ev_fault (next_event w)) as [e|].
  { destruct (is_ErrNoDocuments e); [by apply Hrest | by right]. }
  destruct (coll w !! id) as [d|] eqn:Hd; [|by apply Hrest].
  destruct (acquirable unl d) eqn:Ha; [|by apply Hrest].
  left. split; [done|]. by exists d.
Qed.

(** *** The requests [Lock] sends *)

Lemma Lock_retry_log (id : Id) (currTime unlockTime : Z) (n : nat) (w : World) :
  ∃ k, (k ≤ n)%nat ∧
    (log (Lock_retry id currTime unlockTime n w).2).*2 =
      (log w).*2 ++ replicate k (tryLock_request id currTime unlockTime).
Proof.
  revert w. induction n as [|n IH]; intros w.
  - exists O. cbn. by rewrite app_nil_r.
  - rewrite Lock_retry_S, tryLock_eq. cbn zeta.
    set (req := tryLock_request id currTime unlockTime).
    assert (Hone : (log (sent req w)).*2 = (log w).*2 ++ replicate 1 req).
    { cbn. by rewrite fmap_app. }
    assert (Hmore : ∃ k, (k ≤ S n)%nat ∧
      (log (Lock_retry id currTime unlockTime n (sent req w)).2).*2 =
        (log w).*2 ++ replicate k req).
    { destruct (IH (sent req w)) as (k & Hk & Hlog). exists (S k). split; [lia|].
      rewrite Hlog, Hone. rewrite <- app_assoc. done. }
    assert (Hstop : ∃ k, (k ≤ S n)%nat ∧
      (log (sent req w)).*2 = (log w).*2 ++ replicate k req).
    { exists 1%nat. split; [lia | done]. }
    destruct (ev_fault (next_event w)) as [e|].
    { by destruct (is_ErrNoDocuments e). }
    destruct (coll w !! id) as [d|]; [|done].
    by destruct (acquirable unlockTime d).
Qed.

(** The requests of a call of [Lock]: the conditional acquire, then
    possibly the probe and at most [lockRetryCount] more conditional
    acquires, all of them built from the clock reading taken on entry. *)
Lemma Lock_log (mutexes : MongodbMutexes) (id : Id) (w : World) :
  let req := tryLock_request id (entry_currTime w) (entry_unlockTime mutexes w) in
  let sent_by_call := (log (Lock mutexes id w).2).*2 in
  sent_by_call = (log w).*2 ++ [req] ∨
  ∃ k, (k ≤ Z.to_nat (lockRetryCount mutexes))%nat ∧
       sent_by_call = (log w).*2 ++ req :: ReqFindOne (F_id id) :: replicate k req.
Proof.
  rewrite Lock_eq. cbn zeta. rewrite tryLock_eq. cbn zeta.
  set (cur := entry_currTime w). set (unl := entry_unlockTime mutexes w).
  set (req := tryLock_request id cur unl).
  assert (Hone : ∀ c, (log (with_coll c (sent req w))).*2 = (log w).*2 ++ [req]).
  { intros c. cbn. by rewrite fmap_app. }
  assert (Hrest : ∀ w1 : World, (log w1).*2 = (log w).*2 ++ [req] →
    let x := (let '((found, err), w2) := exists_ id w1 in
              match err with
              | Some e => ((false, false, Some e), w2)
              | None => if negb found then ((false, true, None), w2)
                        else Lock_retry id cur unl (Z.to_nat (lockRetryCount mutexes)) w2
              end) in
    ∃ k, (k ≤ Z.to_nat (lockRetryCount mutexes))%nat ∧
         (log x.2).*2 = (log w).*2 ++ req :: ReqFindOne (F_id id) :: replicate k req).
  { intros v Hv. rewrite exists_eq. cbn zeta.
    set (probe := ReqFindOne (F_id id)).
    assert (Hprobe : (log (sent probe v)).*2 = (log w).*2 ++ [req; probe]).
    { cbn. rewrite fmap_app, Hv, <- app_assoc. done. }
    assert (Hstop : ∃ k, (k ≤ Z.to_nat (lockRetryCount mutexes))%nat ∧
      (log (sent probe v)).*2 = (log w).*2 ++ req :: probe :: replicate k req).
    { exists O. split; [lia | done]. }
    destruct (ev_fault (next_event v)) as [e|].
    { by destruct (is_ErrNoDocuments e). }
    destruct (present id (coll v)); cbn [negb]; [|done].
    destruct (Lock_retry_log id cur unl (Z.to_nat (lockRetryCount mutexes))
                (sent probe v)) as (k & Hk & Hlog).
    exists k. split; [done|]. rewrite Hlog, Hprobe, <- app_assoc. done. }
  pose proof (Hone (coll w)) as Hone'.
  destruct (ev_fault (next_event w)) as [e|].
  { destruct (is_ErrNoDocuments e); [right; by apply Hrest | by left]. }
  destruct (coll w !! id) as [d|]; [|right; by apply Hrest].
  destruct (acquirable unl d); [left; apply Hone | right; by apply Hrest].
Qed.

(** *** Runs without faults *)

Lemma Lock_retry_held (id : Id) (currTime unlockTime : Z) (n : nat) (w : World) (d : LockDoc) :
  fault_free (pending w) = true →
  coll w !! id = Some d →
  acquirable unlockTime d = false →
  (Lock_retry id currTime unlockTime n w).1 = (false, false, None) ∧
  coll (Lock_retry id currTime unlockTime n w).2 = coll w ∧
  (log (Lock_retry id currTime unlockTime n w).2).*2 =
    (log w).*2 ++ replicate n (tryLock_request id currTime unlockTime).
Proof.
  revert w. induction n as [|n IH]; intros w Hff Hd Ha.
  - cbn. by rewrite app_nil_r.
  - rewrite Lock_retry_S, tryLock_eq. cbn zeta.
    set (req := tryLock_request id currTime unlockTime).
    destruct (fault_free_next req w Hff) as [-> Hff'].
    rewrite Hd, Ha.
    destruct (IH (sent req w) Hff' Hd Ha) as (Hr & Hc & Hlog).
    split; [done|]. split; [done|].
    rewrite Hlog. cbn. rewrite fmap_app, <- app_assoc. done.
Qed.

Lemma Lock_held_run (mutexes : MongodbMutexes) (id : Id) (w : World) (d : LockDoc) :
  let req := tryLock_request id (entry_currTime w) (entry_unlockTime mutexes w) in
  fault_free (pending w) = true →
  coll w !! id = Some d →
  acquirable (entry_unlockTime mutexes w) d = false →
  (Lock mutexes id w).1 = (false, false, None) ∧
  coll (Lock mutexes id w).2 = coll w ∧
  (log (Lock mutexes id w).2).*2 =
    (log w).*2 ++ req :: ReqFindOne (F_id id)
                  :: replicate (Z.to_nat (lockRetryCount mutexes)) req.
Proof.
  intros req Hff Hd Ha. rewrite Lock_eq. cbn zeta. rewrite tryLock_eq. cbn zeta.
  fold req.
  destruct (fault_free_next req w Hff) as [-> Hff1].
  rewrite Hd, Ha. rewrite exists_eq. cbn zeta.
  set (probe := ReqFindOne (F_id id)).
  destruct (fault_free_next probe (sent req w) Hff1) as [-> Hff2].
  assert (Hp : present id (coll (sent req w)) = true).
  { unfold present. cbn. by rewrite Hd. }
  rewrite Hp. cbn [negb].
  destruct (Lock_retry_held id (entry_currTime w) (entry_unlockTime mutexes w)
              (Z.to_nat (lockRetryCount mutexes)) (sent probe (sent req w)) d
              Hff2 Hd Ha) as (Hr & Hc & Hlog).
  split; [done|]. split; [done|].
  rewrite Hlog. cbn. rewrite !fmap_app, <- !app_assoc. done.
Qed.

Lemma Lock_absent_run (mutexes : MongodbMutexes) (id : Id) (w : World) :
  let req := tryLock_request id (entry_currTime w) (entry_unlockTime mutexes w) in
  fault_free (pending w) = true →
  coll w !! id = None →
  Lock mutexes id w = ((false, true, None), sent (ReqFindOne (F_id id)) (sent req w)).
Proof.
  intros req Hff Hd. rewrite Lock_eq. cbn zeta. rewrite tryLock_eq. cbn zeta.
  fold req.
  destruct (fault_free_next req w Hff) as [-> Hff1].
  rewrite Hd. rewrite exists_eq. cbn zeta.
  destruct (fault_free_next (ReqFindOne (F_id id)) (sent req w) Hff1) as [-> _].
  assert (Hp : present id (coll (sent req w)) = false).
  { unfold present. cbn. by rewrite Hd. }
  by rewrite Hp.
Qed.

Lemma Lock_free_run (mutexes : MongodbMutexes) (id : Id) (w : World) (d : LockDoc) :
  let currTime := entry_currTime w in
  let unlockTime := entry_unlockTime mutexes w in
  ev_fault (next_event w) = None →
  coll w !! id = Some d →
  acquirable unlockTime d = true →
  Lock mutexes id w =
    ((true, false, None),
     with_coll (<[id := mkLockDoc 1 currTime]> (coll w))
               (sent (tryLock_request id currTime unlockTime) w)).
Proof.
  intros cur unl Hf Hd Ha. rewrite Lock_eq. cbn zeta. rewrite tryLock_eq. cbn zeta.
  fold cur unl. by rewrite Hf, Hd, Ha.
Qed.

(** *** The threshold without and with wrap-around *)

Lemma entry_no_wrap (mutexes : MongodbMutexes) (w : World) :
  0 ≤ maxLockTime mutexes ≤ clock w →
  clock w < u64_modulus →
  entry_currTime w = clock w ∧
  entry_unlockTime mutexes w = clock w - maxLockTime mutexes.
Proof.
  intros Hm Hc. unfold entry_unlockTime, entry_currTime, u64_sub, uint64.
  rewrite (Z.mod_small (clock w)) by lia. split; [done|].
  apply Z.mod_small. lia.
Qed.

Lemma entry_wrap (mutexes : MongodbMutexes) (w : World) :
  0 ≤ clock w < maxLockTime mutexes →
  maxLockTime mutexes < u64_modulus →
  entry_currTime w = clock w ∧
  entry_unlockTime mutexes w = clock w - maxLockTime mutexes + u64_modulus.
Proof.
  intros Hc Hm. unfold entry_unlockTime, entry_currTime, u64_sub, uint64.
  rewrite (Z.mod_small (clock w)) by lia. split; [done|].
  symmetry. apply (Z.mod_unique_pos _ _ (-1)); lia.
Qed.

(** ** The claims about [Lock] *)

(** C2, as the code has it: a record LOCKED at [t0] and never released is
    acquired by a call of [Lock] whose clock reads [now] (with
    [maxLockTime <= now], so that the threshold does not wrap, and no
    store fault) if and only if [t0 + maxLockTime < now], strictly: at
    [now = t0 + maxLockTime] the record is still held. *)
Theorem Lock_stale_recovery_strict (mutexes : MongodbMutexes) (id : Id)
    (w : World) (t0 : Z) :
  coll w !! id = Some (mkLockDoc 1 t0) →
  fault_free (pending w) = true →
  0 ≤ maxLockTime mutexes ≤ clock w →
  clock w < u64_modulus →
  ((Lock mutexes id w).1.1.1 = true ↔ t0 + maxLockTime mutexes < clock w) ∧
  ((Lock mutexes id w).1.2 = None).
Proof.
  intros Hd Hff Hm Hc.
  destruct (entry_no_wrap mutexes w Hm Hc) as [Hcur Hunl].
  destruct (acquirable (entry_unlockTime mutexes w) (mkLockDoc 1 t0)) eqn:Ha.
  - destruct (fault_free_next (tryLock_request id 0 0) w Hff) as [Hf _].
    rewrite (Lock_free_run mutexes id w _ Hf Hd Ha). cbn.
    unfold acquirable in Ha. cbn in Ha. rewrite Hunl in Ha.
    apply Z.ltb_lt in Ha. split; [|done]. split; [lia | done].
  - destruct (Lock_held_run mutexes id w _ Hff Hd Ha) as (-> & _ & _). cbn.
    unfold acquirable in Ha. cbn in Ha. rewrite Hunl in Ha.
    apply Z.ltb_ge in Ha. split; [|done]. split; [done | lia].
Qed.

(** C3, as the code has it: the clock is read once, on entry.  Every
    conditional acquire of a call of [Lock], the retries included, is the
    request built from that reading and from the threshold computed from
    it; so a record that is held and not stale on entry is not acquired by
    any retry, however much time the round trips take. *)
Theorem Lock_retry_reuses_entry_clock (mutexes : MongodbMutexes) (id : Id) (w : World) :
  let req := tryLock_request id (entry_currTime w) (entry_unlockTime mutexes w) in
  let sent_by_call := (log (Lock mutexes id w).2).*2 in
  (sent_by_call = (log w).*2 ++ [req] ∨
   ∃ k, (k ≤ Z.to_nat (lockRetryCount mutexes))%nat ∧
        sent_by_call = (log w).*2 ++ req :: ReqFindOne (F_id id) :: replicate k req) ∧
  (∀ d, fault_free (pending w) = true →
        coll w !! id = Some d →
        acquirable (entry_unlockTime mutexes w) d = false →
        (Lock mutexes id w).1 = (false, false, None) ∧
        sent_by_call =
          (log w).*2 ++ req :: ReqFindOne (F_id id)
                        :: replicate (Z.to_nat (lockRetryCount mutexes)) req).
Proof.
  intros req sent_by_call. split.
  - apply Lock_log.
  - intros d Hff Hd Ha.
    destruct (Lock_held_run mutexes id w d Hff Hd Ha) as (Hr & _ & Hlog). done.
Qed.

(** C4: without a record for the identity, [Lock] never reports
    [ok = true], whatever the store does; and when the store reports no
    fault it sends the conditional acquire and then the existence probe,
    and returns [ok = false], [absent = true] and no error, leaving the
    collection as it was. *)
Theorem Lock_absent_signal (mutexes : MongodbMutexes) (id : Id) (w : World) :
  coll w !! id = None →
  (Lock mutexes id w).1.1.1 = false ∧
  (fault_free (pending w) = true →
   (Lock mutexes id w).1 = (false, true, None) ∧
   (log (Lock mutexes id w).2).*2 =
     (log w).*2 ++ [tryLock_request id (entry_currTime w) (entry_unlockTime mutexes w);
                    ReqFindOne (F_id id)] ∧
   coll (Lock mutexes id w).2 = coll w).
Proof.
  intros Hd. split.
  - destruct (Lock_cases mutexes id w) as [[_ (d & Hd' & _)] | [Hr _]]; [congruence | done].
  - intros Hff. rewrite (Lock_absent_run mutexes id w Hff Hd). cbn.
    split; [done|]. split; [|done]. rewrite !fmap_app, <- app_assoc. done.
Qed.

(** C5: with [lockRetryCount = 0], a record that is LOCKED and not stale,
    and no store fault, [Lock] returns [ok = false], [absent = false] and
    no error after one conditional acquire and the probe: the loop sends
    nothing. *)
Theorem Lock_retry_budget_zero (mutexes : MongodbMutexes) (id : Id)
    (w : World) (d : LockDoc) :
  lockRetryCount mutexes = 0 →
  coll w !! id = Some d →
  state d = 1 →
  ¬ time d < entry_unlockTime mutexes w →
  fault_free (pending w) = true →
  (Lock mutexes id w).1 = (false, false, None) ∧
  (log (Lock mutexes id w).2).*2 =
    (log w).*2 ++ [tryLock_request id (entry_currTime w) (entry_unlockTime mutexes w);
                   ReqFindOne (F_id id)] ∧
  coll (Lock mutexes id w).2 = coll w.
Proof.
  intros Hn Hd Hs Ht Hff.
  assert (Ha : acquirable (entry_unlockTime mutexes w) d = false).
  { unfold acquirable. rewrite Hs. cbn. by apply Z.ltb_ge, Z.nlt_ge. }
  destruct (Lock_held_run mutexes id w d Hff Hd Ha) as (Hr & Hc & Hlog).
  rewrite Hn in Hlog. done.
Qed.

Lemma Lock_retry_encoded_agrees (id : Id) (currTime unlockTime : Z) (n : nat) (w : World) :
  encode_uint64 unlockTime = None →
  encode_uint64 currTime = None →
  Lock_retry_encoded id currTime unlockTime n w = Lock_retry id currTime unlockTime n w.
Proof.
  intros Hu Hc. revert w. induction n as [|n IH]; intros w; [done|].
  rewrite Lock_retry_S.
  change (Lock_retry_encoded id currTime unlockTime (S n) w)
    with (bind (tryLock_encoded id currTime unlockTime)
               (λ '(tryOneOk, err),
                  match err with
                  | Some e => ret (false, false, Some e)
                  | None => if tryOneOk then ret (true, false, None)
                            else Lock_retry_encoded id currTime unlockTime n
                  end) w).
  unfold bind, tryLock_encoded, ret. rewrite Hu, Hc.
  destruct (tryLock id currTime unlockTime w) as [[ok [e|]] w1]; [done|].
  destruct ok; [done | apply IH].
Qed.

(** Where both numbers can be encoded, the encoding step changes nothing. *)
Lemma Lock_encoded_agrees (mutexes : MongodbMutexes) (id : Id) (w : World) :
  encode_uint64 (entry_unlockTime mutexes w) = None →
  encode_uint64 (entry_currTime w) = None →
  Lock_encoded mutexes id w = Lock mutexes id w.
Proof.
  intros Hu Hc. rewrite Lock_eq. cbn zeta.
  unfold Lock_encoded, bind, time_Now_UnixMilli, tryLock_encoded, ret.
  fold (entry_currTime w). fold (entry_unlockTime mutexes w).
  cbv beta iota zeta. fold (entry_currTime w). fold (entry_unlockTime mutexes w).
  rewrite Hu, Hc.
  destruct (tryLock id _ _ w) as [[ok [e|]] w1]; [done|].
  destruct ok; [done|].
  destruct (exists_ id w1) as [[found [e|]] w2]; [done|].
  destruct found; cbn [negb]; [|done].
  by apply Lock_retry_encoded_agrees.
Qed.

(** A threshold the driver cannot encode ends the call before anything is
    sent. *)
Lemma Lock_encoded_refused (mutexes : MongodbMutexes) (id : Id) (w : World) (e : error) :
  encode_uint64 (entry_unlockTime mutexes w) = Some e →
  Lock_encoded mutexes id w = ((false, false, Some e), w).
Proof.
  intros Hu. unfold Lock_encoded, bind, time_Now_UnixMilli, tryLock_encoded, ret.
  cbv beta iota zeta. fold (entry_currTime w). fold (entry_unlockTime mutexes w).
  by rewrite Hu.
Qed.

(** C10, as the code and its driver have it: the threshold is
    [currTime - maxLockTime] on [uint64]; when the clock reads less than
    [maxLockTime] it wraps to [currTime - maxLockTime + 2^64], a value of
    at least [2^64 - maxLockTime], and the filter's test
    [time < unlockTime] holds for every record stamped below
    [2^64 - maxLockTime], LOCKED a moment ago or not.  But unless
    [maxLockTime] exceeds [2^63 + currTime], the wrapped threshold is
    above [MaxInt64]: the driver refuses to encode it and [Lock] returns
    that error with nothing sent and nothing acquired.  Only a lease
    longer than [2^63 + currTime] gives a threshold that is sent, and
    then the record is acquired. *)
Theorem Lock_threshold_wraps_refused (mutexes : MongodbMutexes) (id : Id)
    (w : World) (d : LockDoc) :
  0 ≤ clock w < maxLockTime mutexes →
  maxLockTime mutexes < u64_modulus →
  entry_unlockTime mutexes w = clock w - maxLockTime mutexes + u64_modulus ∧
  u64_modulus - maxLockTime mutexes ≤ entry_unlockTime mutexes w ∧
  (time d < u64_modulus - maxLockTime mutexes →
   acquirable (entry_unlockTime mutexes w) d = true) ∧
  (maxLockTime mutexes ≤ 2 ^ 63 + clock w →
   MaxInt64 < entry_unlockTime mutexes w ∧
   Lock_encoded mutexes id w =
     ((false, false, Some (OtherError "overflows int64")), w)) ∧
  (2 ^ 63 + clock w < maxLockTime mutexes →
   coll w !! id = Some d →
   time d < u64_modulus - maxLockTime mutexes →
   ev_fault (next_event w) = None →
   (Lock_encoded mutexes id w).1 = (true, false, None) ∧
   coll (Lock_encoded mutexes id w).2 !! id = Some (mkLockDoc 1 (clock w))).
Proof.
  intros Hc Hm. destruct (entry_wrap mutexes w Hc Hm) as [Hcur Hunl].
  assert (Hmod : u64_modulus = 2 * 2 ^ 63) by reflexivity.
  assert (Hmax : MaxInt64 = 2 ^ 63 - 1) by reflexivity.
  assert (Ha : time d < u64_modulus - maxLockTime mutexes →
               acquirable (entry_unlockTime mutexes w) d = true).
  { intros Ht. unfold acquirable. apply orb_true_iff. right. apply Z.ltb_lt. lia. }
  split; [done|]. split; [lia|]. split; [exact Ha|]. split.
  - intros Hle. assert (Hlt : MaxInt64 < entry_unlockTime mutexes w) by lia.
    split; [done|]. apply Lock_encoded_refused.
    unfold encode_uint64. by rewrite (proj2 (Z.ltb_lt _ _) Hlt).
  - intros Hgt Hd Ht Hf.
    assert (Hu : encode_uint64 (entry_unlockTime mutexes w) = None).
    { unfold encode_uint64. rewrite (proj2 (Z.ltb_ge _ _)); [done | lia]. }
    assert (Hcu : encode_uint64 (entry_currTime w) = None).
    { unfold encode_uint64. rewrite (proj2 (Z.ltb_ge _ _)); [done | lia]. }
    rewrite (Lock_encoded_agrees mutexes id w Hu Hcu).
    rewrite (Lock_free_run mutexes id w d Hf Hd (Ha Ht)). cbn.
    split; [done|]. by rewrite lookup_insert_eq, Hcur.
Qed.

(** ** [NewAndLock] *)

Lemma isDup_spec (err : error) : isDup err = true ↔ has_duplicate_key err.
Proof.
  unfold isDup, has_duplicate_key.
  destruct (errors_As_WriteException err) as [wes|].
  - rewrite existsb_exists. split.
    + intros (we & Hin & Hc). exists wes, we.
      split; [done|]. split; [by apply list_elem_of_In | by apply Z.eqb_eq].
    + intros (wes' & we & [= <-] & Hin & Hc). exists we.
      split; [by apply list_elem_of_In | by apply Z.eqb_eq].
  - split; [done|]. by intros (wes & we & ? & _).
Qed.

Lemma InsertOne_eq (id : Id) (doc : LockDoc) (w : World) :
  InsertOne id doc w =
    let w1 := sent (ReqInsertOne id doc) w in
    match ev_fault (next_event w) with
    | Some e => (Some e, w1)
    | None =>
        match coll w !! id with
        | Some _ => (Some duplicate_key_error, w1)
        | None => (None, with_coll (<[id := doc]> (coll w)) w1)
        end
    end.
Proof.
  unfold InsertOne, bind, sent, round_trip, get_coll, put_coll, ret. simpl.
  destruct (ev_fault (next_event w)) as [e|]; [done|].
  change (coll (mkWorld (coll w) (clock w + ev_elapsed (next_event w))
                  (log w ++ [(clock w, ReqInsertOne id doc)]) (tail (pending w))))
    with (coll w).
  by destruct (coll w !! id).
Qed.

Lemma NewAndLock_eq (id : Id) (w : World) :
  NewAndLock id w =
    let ins := InsertOne id (mkLockDoc 1 (entry_currTime w)) w in
    (match ins.1 with
     | Some e => if isDup e then (false, None) else (false, Some e)
     | None => (true, None)
     end, ins.2).
Proof.
  unfold NewAndLock, bind, time_Now_UnixMilli, entry_currTime, ret.
  cbv beta iota zeta.
  destruct (InsertOne id _ w) as [[e|] w1]; cbn; [|done].
  by destruct (isDup e).
Qed.

(** C6: [NewAndLock] returns [ok = false] with a nil error exactly when
    the insert fails with an error that is (or wraps) a write exception
    holding a write error of code 11000; any other error of the insert is
    returned as it is; a successful insert gives [ok = true].  On the
    store: with no fault, an identity that has a record gives
    [(false, nil)] and leaves the collection alone, and one that has none
    gives [(true, nil)] and a LOCKED record stamped with the clock. *)
Theorem NewAndLock_outcomes (id : Id) (w : World) :
  let inserted := (InsertOne id (mkLockDoc 1 (entry_currTime w)) w).1 in
  let r := (NewAndLock id w).1 in
  let w' := (NewAndLock id w).2 in
  (r = (false, None) ↔ ∃ e, inserted = Some e ∧ has_duplicate_key e) ∧
  (∀ e, inserted = Some e → ¬ has_duplicate_key e → r = (false, Some e)) ∧
  (inserted = None → r = (true, None)) ∧
  (ev_fault (next_event w) = None → is_Some (coll w !! id) →
   r = (false, None) ∧ coll w' = coll w) ∧
  (ev_fault (next_event w) = None → coll w !! id = None →
   r = (true, None) ∧
   coll w' = <[id := mkLockDoc 1 (entry_currTime w)]> (coll w)).
Proof.
  cbn zeta. rewrite NewAndLock_eq. cbn zeta. cbn [fst snd].
  split; [|split; [|split; [|split]]].
  - destruct (InsertOne _ _ w).1 as [e|] eqn:Hins.
    + destruct (isDup e) eqn:Hdup.
      * split; [|done]. intros _. exists e. split; [done|]. by apply isDup_spec.
      * split; [done|]. intros (e' & [= <-] & Hk). apply isDup_spec in Hk. congruence.
    + split; [done|]. by intros (e & ? & _).
  - intros e -> Hk. destruct (isDup e) eqn:Hdup; [|done].
    by apply isDup_spec in Hdup.
  - by intros ->.
  - intros Hf [d Hd]. rewrite InsertOne_eq. cbn zeta. by rewrite Hf, Hd.
  - intros Hf Hd. rewrite InsertOne_eq. cbn zeta. by rewrite Hf, Hd.
Qed.

(** ** [UnlockAll] *)

Lemma UpdateOne_unlock_eq (id : Id) (w : World) :
  UpdateOne (F_id id) [Set_state 0] w =
    let w1 := sent (ReqUpdateOne (F_id id) [Set_state 0]) w in
    match ev_fault (next_event w) with
    | Some e => (Some e, w1)
    | None =>
        match coll w !! id with
        | Some d => (None, with_coll (<[id := mkLockDoc 0 (time d)]> (coll w)) w1)
        | None => (None, w1)
        end
    end.
Proof.
  unfold UpdateOne, bind, sent, round_trip, get_coll, put_coll, ret. simpl.
  destruct (ev_fault (next_event w)) as [e|]; [done|].
  rewrite find_one_F_id. cbn. by destruct (coll w !! id).
Qed.

Lemma UnlockAll_cons (id : Id) (rest : list Id) (w : World) :
  UnlockAll (id :: rest) w = UnlockAll rest (UpdateOne (F_id id) [Set_state 0] w).2.
Proof.
  change (UnlockAll (id :: rest))
    with (bind (UpdateOne (F_id id) [Set_state 0]) (λ _, UnlockAll rest)).
  unfold bind. by destruct (UpdateOne _ _ w).
Qed.

(** One release: the record of [i] stays, with its timestamp. *)
Lemma UpdateOne_unlock_lookup (id i : Id) (w : World) :
  let w' := (UpdateOne (F_id id) [Set_state 0] w).2 in
  match coll w !! i with
  | Some d => coll w' !! i = Some d ∨ (i = id ∧ coll w' !! i = Some (mkLockDoc 0 (time d)))
  | None => coll w' !! i = None
  end.
Proof.
  rewrite UpdateOne_unlock_eq. cbn zeta.
  destruct (ev_fault (next_event w)) as [e|].
  { cbn. destruct (coll w !! i); auto. }
  destruct (coll w !! id) as [d0|] eqn:Hid; cbn.
  - destruct (decide (i = id)) as [->|Hne].
    + rewrite Hid, lookup_insert_eq. auto.
    + rewrite lookup_insert_ne by done. destruct (coll w !! i); auto.
  - destruct (coll w !! i); auto.
Qed.

Lemma UnlockAll_lookup (ids : list Id) (i : Id) (w : World) :
  let w' := (UnlockAll ids w).2 in
  match coll w !! i with
  | Some d => coll w' !! i = Some d ∨
              (i ∈ ids ∧ coll w' !! i = Some (mkLockDoc 0 (time d)))
  | None => coll w' !! i = None
  end.
Proof.
  revert w. induction ids as [|id rest IH]; intros w.
  - cbn. destruct (coll w !! i); auto.
  - rewrite UnlockAll_cons. cbn zeta.
    pose proof (UpdateOne_unlock_lookup id i w) as H1. cbn zeta in H1.
    set (w1 := (UpdateOne (F_id id) [Set_state 0] w).2) in *.
    pose proof (IH w1) as H2. cbn zeta in H2.
    destruct (coll w !! i) as [d|].
    + destruct H1 as [H1 | [-> H1]]; rewrite H1 in H2.
      * destruct H2 as [H2 | [Hin H2]]; [by left|]. right. split; [|done].
        by apply elem_of_cons; right.
      * right. split; [by apply elem_of_cons; left|].
        destruct H2 as [H2 | [_ H2]]; done.
    + by rewrite H1 in H2.
Qed.

Lemma UpdateOne_fault_free (f : Filter) (u : list SetField) (w : World) :
  fault_free (pending w) = true →
  ev_fault (next_event w) = None ∧
  fault_free (pending (UpdateOne f u w).2) = true.
Proof.
  intros Hff. destruct (fault_free_next (ReqUpdateOne f u) w Hff) as [Hf Hff'].
  split; [done|].
  unfold UpdateOne, bind, round_trip, get_coll, put_coll, ret. cbn.
  rewrite Hf. unfold sent, round_trip in Hff'. cbn in Hff'.
  by destruct (find_one f _) as [[k d]|].
Qed.

Lemma UnlockAll_fault_free (ids : list Id) (w : World) :
  fault_free (pending w) = true →
  fault_free (pending (UnlockAll ids w).2) = true.
Proof.
  revert w. induction ids as [|id rest IH]; intros w Hff; [done|].
  rewrite UnlockAll_cons. apply IH. by apply UpdateOne_fault_free.
Qed.

Lemma UnlockAll_unlocks (ids : list Id) (i : Id) (w : World) (d : LockDoc) :
  fault_free (pending w) = true →
  i ∈ ids →
  coll w !! i = Some d →
  coll (UnlockAll ids w).2 !! i = Some (mkLockDoc 0 (time d)).
Proof.
  revert w d. induction ids as [|id rest IH]; intros w d Hff Hin Hd.
  { by apply elem_of_nil in Hin. }
  rewrite UnlockAll_cons.
  destruct (UpdateOne_fault_free (F_id id) [Set_state 0] w Hff) as [Hf Hff1].
  set (w1 := (UpdateOne (F_id id) [Set_state 0] w).2) in *.
  destruct (decide (i = id)) as [->|Hne].
  - assert (H1 : coll w1 !! id = Some (mkLockDoc 0 (time d))).
    { unfold w1. rewrite UpdateOne_unlock_eq. cbn zeta. rewrite Hf, Hd. cbn.
      by rewrite lookup_insert_eq. }
    pose proof (UnlockAll_lookup rest id w1) as H2. cbn zeta in H2.
    rewrite H1 in H2. by destruct H2 as [H2 | [_ H2]].
  - apply elem_of_cons in Hin as [?|Hin]; [done|].
    apply (IH w1 d Hff1 Hin).
    pose proof (UpdateOne_unlock_lookup id i w) as H1. cbn zeta in H1.
    rewrite Hd in H1. by destruct H1 as [H1 | [? _]].
Qed.

(** C7: [UnlockAll] has no result, so it reports no error.  Whatever the
    store does, a record is never deleted, none is created, and its
    timestamp stays; a record whose identity is not in the list stays as
    it is.  With no store fault, the record of every listed identity ends
    with [state = 0] (UNLOCKED), and a second [UnlockAll] leaves it so. *)
Theorem UnlockAll_sets_unlocked_only (ids : list Id) (i : Id) (w : World) :
  let w1 := (UnlockAll ids w).2 in
  let w2 := (UnlockAll ids w1).2 in
  (coll w !! i = None → coll w1 !! i = None) ∧
  (∀ d, coll w !! i = Some d →
     (∃ d', coll w1 !! i = Some d' ∧ time d' = time d ∧
            (d' = d ∨ (i ∈ ids ∧ state d' = 0))) ∧
     (i ∉ ids → coll w1 !! i = Some d) ∧
     (i ∈ ids → fault_free (pending w) = true →
        coll w1 !! i = Some (mkLockDoc 0 (time d)) ∧
        coll w2 !! i = Some (mkLockDoc 0 (time d)))).
Proof.
  cbn zeta. pose proof (UnlockAll_lookup ids i w) as Hl. cbn zeta in Hl.
  split.
  - intros Hd. by rewrite Hd in Hl.
  - intros d Hd. rewrite Hd in Hl. split; [|split].
    + destruct Hl as [Hl | [Hin Hl]].
      * exists d. auto.
      * exists (mkLockDoc 0 (time d)). cbn. auto.
    + intros Hnin. by destruct Hl as [Hl | [Hin _]].
    + intros Hin Hff.
      pose proof (UnlockAll_unlocks ids i w d Hff Hin Hd) as H1.
      split; [done|].
      apply (UnlockAll_unlocks ids i _ (mkLockDoc 0 (time d)));
        [by apply UnlockAll_fault_free | done | done].
Qed.

(** ** The timestamp across the operations *)

Lemma NewAndLock_lookup (id i : Id) (w : World) (d : LockDoc) :
  coll w !! i = Some d → coll (NewAndLock id w).2 !! i = Some d.
Proof.
  intros Hd. rewrite NewAndLock_eq. cbn zeta. cbn [snd].
  rewrite InsertOne_eq. cbn zeta.
  destruct (ev_fault (next_event w)) as [e|]; [done|].
  destruct (coll w !! id) as [d0|] eqn:Hid; [done|]. cbn.
  rewrite lookup_insert_ne; [done|]. congruence.
Qed.

(** ** Callers running interleaved *)

Lemma Lock_step_cases (mutexes : MongodbMutexes) (id : Id) (currTime unlockTime : Z)
    (pc : LockPC) (w : World) :
  let ok_of pc := match pc with PC_return ok _ _ => ok | _ => false end in
  let pc' := (Lock_step mutexes id currTime unlockTime pc w).1 in
  let w' := (Lock_step mutexes id currTime unlockTime pc w).2 in
  (coll w' = coll w ∧ ok_of pc' = ok_of pc) ∨
  (ok_of pc = false ∧ ok_of pc' = true ∧ locks id currTime unlockTime (coll w) (coll w')).
Proof.
  assert (Htry : ∀ next : LockPC,
    match next with PC_return ok _ _ => ok | _ => false end = false →
    let x := (let '((tryOneOk, err), w1) := tryLock id currTime unlockTime w in
              match err with
              | Some e => (PC_return false false (Some e), w1)
              | None => if tryOneOk then (PC_return true false None, w1) else (next, w1)
              end) in
    (coll x.2 = coll w ∧ match x.1 with PC_return ok _ _ => ok | _ => false end = false) ∨
    (match x.1 with PC_return ok _ _ => ok | _ => false end = true ∧
     locks id currTime unlockTime (coll w) (coll x.2))).
  { intros next Hnext. rewrite tryLock_eq. cbn zeta.
    destruct (ev_fault (next_event w)) as [e|].
    { left. by destruct (is_ErrNoDocuments e). }
    destruct (coll w !! id) as [d|] eqn:Hd; [|by left].
    destruct (acquirable unlockTime d) eqn:Ha; [|by left].
    right. split; [done|]. by exists d. }
  destruct pc as [| |[|n]|ok absent err]; cbn zeta.
  - specialize (Htry PC_exists eq_refl). cbn zeta in Htry.
    unfold Lock_step, bind, ret.
    destruct (tryLock id currTime unlockTime w) as [[ok [e|]] w1]; [|destruct ok];
      cbn in Htry |- *; destruct Htry as [[Hc Hk]|[Hk Hl]];
      first [by left | by right | done].
  - left. unfold Lock_step, bind, ret. rewrite exists_eq. cbn zeta.
    destruct (ev_fault (next_event w)) as [e|].
    + by destruct (is_ErrNoDocuments e).
    + by destruct (present id (coll w)).
  - by left.
  - specialize (Htry (PC_retry n) eq_refl). cbn zeta in Htry.
    unfold Lock_step, bind, ret.
    destruct (tryLock id currTime unlockTime w) as [[ok [e|]] w1]; [|destruct ok];
      cbn in Htry |- *; destruct Htry as [[Hc Hk]|[Hk Hl]];
      first [by left | by right | done].
  - by left.
Qed.

Lemma caller_step_cases (c : Caller) (w : World) :
  let c' := (caller_step c w).1 in
  let w' := (caller_step c w).2 in
  (c_mutexes c' = c_mutexes c ∧ c_id c' = c_id c ∧ c_now c' = c_now c) ∧
  ((coll w' = coll w ∧ returned_ok c' = returned_ok c) ∨
   (returned_ok c = false ∧ returned_ok c' = true ∧
    locks (c_id c) (caller_currTime c) (caller_unlockTime c) (coll w) (coll w'))).
Proof.
  pose proof (Lock_step_cases (c_mutexes c) (c_id c) (caller_currTime c)
                (caller_unlockTime c) (c_pc c) w) as Hs.
  cbn zeta in Hs. unfold caller_step, bind, ret, returned_ok.
  destruct (Lock_step _ _ _ _ (c_pc c) w) as [pc' w']. cbn in *. done.
Qed.

Lemma acquired_count_app (id : Id) (cs1 : list Caller) (c : Caller) (cs2 : list Caller) :
  acquired_count id (cs1 ++ c :: cs2) =
    (acquired_count id cs1 + (if has_acquired id c then 1 else 0)
     + acquired_count id cs2)%nat.
Proof.
  unfold acquired_count. rewrite List.filter_app, length_app. cbn.
  destruct (has_acquired id c); cbn; lia.
Qed.

(** A step changes no caller's identity, reading or configuration. *)
Lemma sys_step_same_callers (w w' : World) (cs cs' : list Caller) :
  sys_step (w, cs) (w', cs') →
  ∀ a', a' ∈ cs' →
    ∃ a, a ∈ cs ∧ c_id a' = c_id a ∧ caller_currTime a' = caller_currTime a ∧
         caller_unlockTime a' = caller_unlockTime a.
Proof.
  inversion 1 as [w0 cs1 c cs2 c' w0' Hstep]; subst. intros a' Ha'.
  destruct (caller_step_cases c w) as [(Hm & Hi & Hn) _].
  rewrite Hstep in Hm, Hi, Hn. cbn in Hm, Hi, Hn.
  apply elem_of_app in Ha' as [Ha' | Ha'].
  - exists a'. split; [apply elem_of_app; by left | done].
  - apply elem_of_cons in Ha' as [-> | Ha'].
    + exists c. split; [apply elem_of_app; right; by left|].
      unfold caller_unlockTime, caller_currTime. by rewrite Hm, Hi, Hn.
    + exists a'. split; [apply elem_of_app; right; by right | done].
Qed.

Lemma sys_step_no_stale_expiry (id : Id) (w w' : World) (cs cs' : list Caller) :
  sys_step (w, cs) (w', cs') →
  no_stale_expiry id cs → no_stale_expiry id cs'.
Proof.
  intros Hstep Hns a' b' Ha' Hb' Hia Hib.
  destruct (sys_step_same_callers _ _ _ _ Hstep a' Ha') as (a & Ha & Hida & Hca & _).
  destruct (sys_step_same_callers _ _ _ _ Hstep b' Hb') as (b & Hb & Hidb & _ & Hub).
  rewrite Hca, Hub. apply Hns; congruence.
Qed.

Lemma sys_step_lock_inv (id : Id) (w w' : World) (cs cs' : list Caller) :
  sys_step (w, cs) (w', cs') →
  no_stale_expiry id cs →
  lock_inv id w cs → lock_inv id w' cs'.
Proof.
  intros Hstep Hns Hinv.
  pose proof (sys_step_same_callers _ _ _ _ Hstep) as Hsame.
  inversion Hstep as [w0 cs1 c cs2 c' w0' Hc]; subst.
  destruct (caller_step_cases c w) as [(Hm & Hi & Hn) Hcases].
  rewrite Hc in Hm, Hi, Hn, Hcases. cbn [fst snd] in Hm, Hi, Hn, Hcases.
  assert (Hcur : caller_currTime c' = caller_currTime c).
  { unfold caller_currTime. by rewrite Hn. }
  (* a caller of the old pool has a counterpart in the new one *)
  assert (Hfwd : ∀ a, a ∈ cs1 ++ c :: cs2 → c_id a = id →
            ∃ a', a' ∈ cs1 ++ c' :: cs2 ∧ c_id a' = id ∧
                  caller_currTime a' = caller_currTime a).
  { intros a Ha Hia. apply elem_of_app in Ha as [Ha | Ha].
    - exists a. split; [apply elem_of_app; by left | done].
    - apply elem_of_cons in Ha as [-> | Ha].
      + exists c'. split; [apply elem_of_app; right; by left|]. split; [congruence | done].
      + exists a. split; [apply elem_of_app; right; by right | done]. }
  unfold lock_inv in *. rewrite acquired_count_app in *.
  unfold has_acquired in *. rewrite Hi.
  destruct Hcases as [[Hcoll Hok] | (Hok & Hok' & d0 & Hd0 & Ha0 & Hcoll)].
  - (* the collection is as it was *)
    rewrite Hok, Hcoll.
    destruct Hinv as [Hz | [Hone (d & a & Hd & Hs & Ha & Hia & Ht)]]; [by left|].
    right. split; [done|].
    destruct (Hfwd a Ha Hia) as (a' & Ha' & Hia' & Hca').
    exists d, a'. split; [done|]. split; [done|]. split; [done|]. split; [done|].
    congruence.
  - (* the caller has just locked the record of its identity *)
    rewrite Hok', Hcoll. rewrite Hok in Hinv.
    rewrite andb_false_r in Hinv. rewrite andb_true_r.
    destruct (decide (c_id c = id)) as [Hid | Hid].
    + rewrite bool_decide_eq_true_2 by done.
      destruct Hinv as [Hz | [Hone (d & a & Hd & Hs & Ha & Hia & Ht)]].
      * right. split; [lia|].
        exists (mkLockDoc 1 (caller_currTime c)), c'.
        rewrite Hid, lookup_insert_eq. split; [done|]. split; [done|].
        split; [apply elem_of_app; right; by left|]. split; [congruence | done].
      * exfalso. rewrite Hid, Hd in Hd0. injection Hd0 as <-.
        unfold acquirable in Ha0. rewrite Hs in Ha0. cbn in Ha0.
        apply Z.ltb_lt in Ha0. rewrite Ht in Ha0.
        apply (Hns a c); [done | apply elem_of_app; right; by left | done | done | done].
    + rewrite bool_decide_eq_false_2 by done.
      destruct Hinv as [Hz | [Hone (d & a & Hd & Hs & Ha & Hia & Ht)]]; [by left|].
      right. split; [done|].
      destruct (Hfwd a Ha Hia) as (a' & Ha' & Hia' & Hca').
      exists d, a'. rewrite lookup_insert_ne by done.
      split; [done|]. split; [done|]. split; [done|]. split; [done|]. congruence.
Qed.

Lemma sys_steps_lock_inv (id : Id) (s s' : World * list Caller) :
  rtc sys_step s s' →
  no_stale_expiry id s.2 →
  lock_inv id s.1 s.2 →
  lock_inv id s'.1 s'.2.
Proof.
  induction 1 as [s | [w cs] [w1 cs1] s' Hstep _ IH]; [done|].
  intros Hns Hinv. apply IH.
  - by apply (sys_step_no_stale_expiry id w w1 cs cs1).
  - by apply (sys_step_lock_inv id w w1 cs cs1).
Qed.

(** C1: callers of [Lock] run interleaved, each round trip atomic, none
    of them releasing; if no caller of [Lock id] takes a timestamp
    written by another for stale, then at any moment at most one of them
    has returned [ok = true], and while one has, the record is LOCKED. *)
Theorem Lock_mutual_exclusion (id : Id) (w0 w : World) (cs0 cs : list Caller) :
  Forall (λ c, c_pc c = PC_tryOne) cs0 →
  no_stale_expiry id cs0 →
  rtc sys_step (w0, cs0) (w, cs) →
  (acquired_count id cs ≤ 1)%nat ∧
  (acquired_count id cs = 1%nat → ∃ d, coll w !! id = Some d ∧ state d = 1).
Proof.
  intros Hstart Hns Hsteps.
  assert (Hinit : lock_inv id w0 cs0).
  { left. unfold acquired_count. clear Hns Hsteps.
    induction Hstart as [|c cs1 Hc _ IH]; [done|]. cbn.
    unfold has_acquired at 1, returned_ok. rewrite Hc, andb_false_r. exact IH. }
  pose proof (sys_steps_lock_inv id (w0, cs0) (w, cs) Hsteps Hns Hinit) as Hinv.
  cbn in Hinv. destruct Hinv as [Hz | [Hone (d & a & Hd & Hs & _)]].
  - split; [lia|]. intros ?. lia.
  - split; [lia|]. intros _. by exists d.
Qed.

(** *** Who writes the timestamp *)

Lemma tryLock_lookup (id i : Id) (currTime unlockTime : Z) (w : World) (d : LockDoc) :
  coll w !! i = Some d →
  let r := (tryLock id currTime unlockTime w).1 in
  let w' := (tryLock id currTime unlockTime w).2 in
  (r.1 = true → id = i → coll w' !! i = Some (mkLockDoc 1 currTime)) ∧
  (id ≠ i ∨ r = (false, None) → coll w' !! i = Some d) ∧
  (coll w' !! i = Some d ∨ coll w' !! i = Some (mkLockDoc 1 currTime)).
Proof.
  intros Hd. rewrite tryLock_eq. cbn zeta.
  destruct (ev_fault (next_event w)) as [e|].
  { cbn. split; [done|]. split; [done | by left]. }
  destruct (coll w !! id) as [d0|] eqn:Hid; [|cbn; split; [done|]; split; [done | by left]].
  destruct (acquirable unlockTime d0); [|cbn; split; [done|]; split; [done | by left]].
  cbn. destruct (decide (id = i)) as [->|Hne].
  - rewrite lookup_insert_eq. split; [done|]. split; [|by right].
    intros [? | ?]; done.
  - rewrite lookup_insert_ne by done. split; [done|]. split; [done | by left].
Qed.

(** C8, as the code has it: the timestamp of a record is written by a
    successful conditional acquire and by nothing else.  The acquire,
    first attempt or retry, sets it to the clock reading its caller took
    on entry to [Lock], whatever the record held, so at that step it does
    not decrease provided that reading is not behind the stamp the record
    has then; this also holds when the callers run interleaved.
    [NewAndLock] never changes a record that exists, and [UnlockAll] and
    an attempt without a match leave the timestamp as it is. *)
Theorem time_written_by_acquire_only (i : Id) (w : World) (d : LockDoc) :
  coll w !! i = Some d →
  (∀ id currTime unlockTime,
     let r := (tryLock id currTime unlockTime w).1 in
     let w' := (tryLock id currTime unlockTime w).2 in
     (r.1 = true → id = i → coll w' !! i = Some (mkLockDoc 1 currTime)) ∧
     (id ≠ i ∨ r = (false, None) → coll w' !! i = Some d) ∧
     (coll w' !! i = Some d ∨ coll w' !! i = Some (mkLockDoc 1 currTime)) ∧
     (time d ≤ currTime → ∃ d', coll w' !! i = Some d' ∧ time d ≤ time d')) ∧
  (∀ mutexes id,
     let r := (Lock mutexes id w).1 in
     let w' := (Lock mutexes id w).2 in
     (r.1.1 = true → id = i →
      coll w' !! i = Some (mkLockDoc 1 (entry_currTime w))) ∧
     (id ≠ i ∨ (r.1.1 = false ∧ r.2 = None) → coll w' !! i = Some d) ∧
     (coll w' !! i = Some d ∨
      coll w' !! i = Some (mkLockDoc 1 (entry_currTime w)))) ∧
  (∀ cs cs' w',
     sys_step (w, cs) (w', cs') →
     (coll w' !! i = Some d ∨
      ∃ c, c ∈ cs ∧ c_id c = i ∧
           coll w' !! i = Some (mkLockDoc 1 (caller_currTime c))) ∧
     ((∀ c, c ∈ cs → c_id c = i → time d ≤ caller_currTime c) →
      ∃ d', coll w' !! i = Some d' ∧ time d ≤ time d')) ∧
  (∀ id, coll (NewAndLock id w).2 !! i = Some d) ∧
  (∀ ids, ∃ d', coll (UnlockAll ids w).2 !! i = Some d' ∧
                time d' = time d ∧ (d' = d ∨ state d' = 0)).
Proof.
  intros Hd. split; [|split; [|split; [|split]]].
  - intros id currTime unlockTime. cbn zeta.
    destruct (tryLock_lookup id i currTime unlockTime w d Hd) as (H1 & H2 & H3).
    split; [done|]. split; [done|]. split; [done|].
    intros Hle. destruct H3 as [H3 | H3]; rewrite H3.
    + exists d. split; [done | lia].
    + exists (mkLockDoc 1 currTime). split; [done | done].
  - intros mutexes id. cbn zeta.
    destruct (Lock_cases mutexes id w) as [[Hr (d0 & Hd0 & _ & Hc)] | [Hr Hc]];
      rewrite Hc.
    + destruct (decide (id = i)) as [->|Hne].
      * rewrite lookup_insert_eq. split; [done|]. split; [|by right].
        intros [? | [Hf _]]; [done|]. rewrite Hr in Hf. done.
      * rewrite lookup_insert_ne by done. split; [done|]. split; [done | by left].
    + split; [intros Ht; congruence|]. split; [done | by left].
  - intros cs cs' w' Hstep.
    assert (Hcases : coll w' !! i = Some d ∨
      ∃ c, c ∈ cs ∧ c_id c = i ∧
           coll w' !! i = Some (mkLockDoc 1 (caller_currTime c))).
    { inversion Hstep as [w0 cs1 c cs2 c' w0' Hc]; subst.
      destruct (caller_step_cases c w) as [_ Hcases].
      rewrite Hc in Hcases. cbn [fst snd] in Hcases.
      destruct Hcases as [[-> _] | (_ & _ & d0 & Hd0 & _ & ->)]; [by left|].
      destruct (decide (c_id c = i)) as [Hi | Hne].
      - right. exists c. split; [apply elem_of_app; right; by left|].
        split; [done|]. by rewrite Hi, lookup_insert_eq.
      - left. by rewrite lookup_insert_ne. }
    split; [exact Hcases|]. intros Hle.
    destruct Hcases as [-> | (c & Hin & Hi & ->)].
    + exists d. split; [done | lia].
    + exists (mkLockDoc 1 (caller_currTime c)). split; [done|]. by apply Hle.
  - intros id. by apply NewAndLock_lookup.
  - intros ids. pose proof (UnlockAll_lookup ids i w) as Hl. cbn zeta in Hl.
    rewrite Hd in Hl. destruct Hl as [Hl | [_ Hl]].
    + exists d. auto.
    + exists (mkLockDoc 0 (time d)). cbn. auto.
Qed.

(** A caller running alone goes through the machine as [Lock] does. *)
Lemma Lock_run_return (fuel : nat) (mutexes : MongodbMutexes) (id : Id)
    (currTime unlockTime : Z) (ok absent : bool) (err : option error) (w : World) :
  Lock_run fuel mutexes id currTime unlockTime (PC_return ok absent err) w =
    (PC_return ok absent err, w).
Proof. induction fuel as [|fuel IH]; [done|]. cbn. unfold bind, ret. exact IH. Qed.

Lemma Lock_run_retry (mutexes : MongodbMutexes) (id : Id) (currTime unlockTime : Z)
    (n fuel : nat) (w : World) :
  (n < fuel)%nat →
  Lock_run fuel mutexes id currTime unlockTime (PC_retry n) w =
    let '((ok, absent, err), w') := Lock_retry id currTime unlockTime n w in
    (PC_return ok absent err, w').
Proof.
  revert fuel w. induction n as [|n IH]; intros fuel w Hlt.
  - destruct fuel as [|fuel]; [lia|]. cbn. unfold bind, ret.
    apply Lock_run_return.
  - destruct fuel as [|fuel]; [lia|].
    rewrite Lock_retry_S.
    change (Lock_run (S fuel) mutexes id currTime unlockTime (PC_retry (S n)) w)
      with (bind (Lock_step mutexes id currTime unlockTime (PC_retry (S n)))
                 (Lock_run fuel mutexes id currTime unlockTime) w).
    unfold Lock_step, bind, ret.
    destruct (tryLock id currTime unlockTime w) as [[ok [e|]] w1].
    + apply Lock_run_return.
    + destruct ok; [apply Lock_run_return|]. apply IH. lia.
Qed.

Lemma Lock_run_refines (mutexes : MongodbMutexes) (id : Id) (w : World) :
  Lock_run (3 + Z.to_nat (lockRetryCount mutexes)) mutexes id
           (entry_currTime w) (entry_unlockTime mutexes w) PC_tryOne w =
    let '((ok, absent, err), w') := Lock mutexes id w in
    (PC_return ok absent err, w').
Proof.
  rewrite Lock_eq. cbn zeta.
  set (cur := entry_currTime w). set (unl := entry_unlockTime mutexes w).
  set (n := Z.to_nat (lockRetryCount mutexes)).
  change (Lock_run (3 + n) mutexes id cur unl PC_tryOne w)
    with (bind (Lock_step mutexes id cur unl PC_tryOne)
               (Lock_run (2 + n) mutexes id cur unl) w).
  unfold bind at 1. unfold Lock_step at 1. unfold bind at 1. unfold ret.
  destruct (tryLock id cur unl w) as [[ok [e|]] w1].
  { apply Lock_run_return. }
  destruct ok; [apply Lock_run_return|].
  change (Lock_run (2 + n) mutexes id cur unl PC_exists w1)
    with (bind (Lock_step mutexes id cur unl PC_exists)
               (Lock_run (1 + n) mutexes id cur unl) w1).
  unfold bind at 1. unfold Lock_step at 1. unfold bind at 1. unfold ret.
  destruct (exists_ id w1) as [[found [e|]] w2].
  { apply Lock_run_return. }
  destruct found; cbn [negb]; [|apply Lock_run_return].
  apply Lock_run_retry. lia.
Qed.

End MutexFacts.

(** ** [Load] *)

Section StoreFacts.

Context {Id : Type} `{Countable Id}.
Context {Value T : Type}.
Variable zero_T : T.
Variable newZeroEntity : T.
Variable bson_Marshal : bsonD (Value := Value) → list Byte.byte + error.
Variable bson_Unmarshal : list Byte.byte → T → T.

#[local] Abbreviation Load' := (Load zero_T newZeroEntity bson_Marshal bson_Unmarshal).

Lemma Load_no_documents (docs : gmap Id bsonD) (id : Id) :
  docs !! id = None → Load' docs None id = (zero_T, false, None).
Proof. intros Hd. unfold Load, Store_FindOne. by rewrite Hd. Qed.

Lemma Load_found (docs : gmap Id bsonD) (id : Id) (d : bsonD) (doc : list Byte.byte) :
  docs !! id = Some d → bson_Marshal d = inl doc →
  Load' docs None id = (bson_Unmarshal doc newZeroEntity, true, None).
Proof. intros Hd Hm. unfold Load, Store_FindOne. rewrite Hd. cbn. by rewrite Hm. Qed.

(** C9, on [Load]: when [FindOne] fails with an error that is not the
    no-documents sentinel, [Load] does not return it.  It goes on with the
    nil document: it returns the error of [bson.Marshal] if there is one,
    and otherwise a fresh entity with [found = true] and a nil error; the
    result is the same whatever the error of [FindOne] was. *)
Theorem Load_drops_find_error (docs : gmap Id bsonD) (id : Id) (e : error) :
  is_ErrNoDocuments e = false →
  Load' docs (Some e) id =
    match bson_Marshal [] with
    | inl doc => (bson_Unmarshal doc newZeroEntity, true, None)
    | inr e' => (zero_T, false, Some e')
    end.
Proof.
  intros He. unfold Load, Store_FindOne, SingleResult_Err, SingleResult_Decode.
  cbn. rewrite He. by destruct (bson_Marshal []).
Qed.

End StoreFacts.

(** ** Examples *)

Section Examples.

Import Scenario.

(** C2, the claim as stated fails: the record was LOCKED at 1000 and the
    lease is 60000 ms; at 61000 the claim's [now >= t0 + maxLockHoldMillis]
    holds, and yet [Lock] gives up after all its retries. *)
Lemma Lock_stale_recovery_at_threshold_cex :
  let w := world_with (mkLockDoc 1 1000) 61000 [] in
  61000 >= 1000 + maxLockTime NewMongodbMutexes ∧
  (Lock NewMongodbMutexes order42 w).1 = (false, false, None).
Proof. split; [by vm_compute | by vm_compute]. Qed.

(** One millisecond later the record is acquired. *)
Lemma Lock_stale_recovery_strict_witness :
  let w := world_with (mkLockDoc 1 1000) 61001 [] in
  ((Lock NewMongodbMutexes order42 w).1.1.1 = true ↔
     1000 + maxLockTime NewMongodbMutexes < clock w) ∧
  (Lock NewMongodbMutexes order42 w).1.2 = None.
Proof.
  apply (Lock_stale_recovery_strict NewMongodbMutexes order42
           (world_with (mkLockDoc 1 1000) 61001 []) 1000).
  - reflexivity.
  - reflexivity.
  - vm_compute. split; discriminate.
  - reflexivity.
Defined.

(** C3, the claim as stated fails: the record was LOCKED at 10000 with a
    lease of 1000 ms; the caller enters at 10500 and every round trip
    takes 300 ms.  The first retry is issued at 11100, when the record is
    stale by the wall clock (it matches the filter recomputed at 11100),
    but the request still carries the reading 10500 and the threshold
    9500 of the entry, and [Lock] gives up. *)
Lemma Lock_retry_recompute_cex :
  let w := world_with (mkLockDoc 1 10000) 10500 (slow 5) in
  log (Lock three_retries order42 w).2 !! 2%nat =
    Some (11100, tryLock_request order42 10500 9500) ∧
  tryLock_request order42 10500 9500 ≠
    tryLock_request order42 (uint64 11100) (u64_sub (uint64 11100) 1000) ∧
  acquirable (u64_sub (uint64 11100) 1000) (mkLockDoc 1 10000) = true ∧
  (Lock three_retries order42 w).1 = (false, false, None).
Proof.
  split; [by vm_compute|]. split; [by vm_compute|]. split; by vm_compute.
Qed.

Lemma Lock_retry_reuses_entry_clock_witness :
  let w := world_with (mkLockDoc 1 10000) 10500 (slow 5) in
  let req := tryLock_request order42 10500 9500 in
  (Lock three_retries order42 w).1 = (false, false, None) ∧
  (log (Lock three_retries order42 w).2).*2 =
    [req; ReqFindOne (F_id order42); req; req; req].
Proof.
  destruct (Lock_retry_reuses_entry_clock three_retries order42
              (world_with (mkLockDoc 1 10000) 10500 (slow 5))) as [_ Hheld].
  apply (Hheld (mkLockDoc 1 10000)); reflexivity.
Defined.

Lemma Lock_absent_signal_witness :
  let w := empty_world 100000 (slow 2) in
  (Lock NewMongodbMutexes order42 w).1.1.1 = false ∧
  (Lock NewMongodbMutexes order42 w).1 = (false, true, None).
Proof.
  destruct (Lock_absent_signal NewMongodbMutexes order42
              (empty_world 100000 (slow 2))) as [Hnever Hrun].
  - reflexivity.
  - split; [exact Hnever|]. apply Hrun. reflexivity.
Defined.

Lemma Lock_retry_budget_zero_witness :
  let w := world_with (mkLockDoc 1 90000) 100000 [] in
  (Lock (mkMutexes 0 60000) order42 w).1 = (false, false, None) ∧
  coll (Lock (mkMutexes 0 60000) order42 w).2 = coll w.
Proof.
  destruct (Lock_retry_budget_zero (mkMutexes 0 60000) order42
              (world_with (mkLockDoc 1 90000) 100000 []) (mkLockDoc 1 90000))
    as (Hr & _ & Hc).
  - reflexivity.
  - reflexivity.
  - reflexivity.
  - vm_compute. discriminate.
  - reflexivity.
  - split; [exact Hr | exact Hc].
Defined.

(** C10, the claim as stated fails: the clock reads 500 and the lease is
    one second.  The threshold wraps and the record LOCKED at 400 passes
    the filter's test, but the threshold cannot be encoded: [Lock]
    returns the error, sends nothing and leaves the record to its
    holder. *)
Lemma Lock_threshold_wraps_refused_cex :
  let w := world_with (mkLockDoc 1 400) 500 [] in
  entry_unlockTime three_retries w = 500 - 1000 + u64_modulus ∧
  acquirable (entry_unlockTime three_retries w) (mkLockDoc 1 400) = true ∧
  Lock_encoded three_retries order42 w =
    ((false, false, Some (OtherError "overflows int64")), w).
Proof. split; [by vm_compute|]. split; by vm_compute. Qed.

Lemma Lock_threshold_wraps_refused_witness :
  let w := world_with (mkLockDoc 1 400) 500 [] in
  MaxInt64 < entry_unlockTime three_retries w ∧
  Lock_encoded three_retries order42 w =
    ((false, false, Some (OtherError "overflows int64")), w).
Proof.
  destruct (Lock_threshold_wraps_refused three_retries order42
              (world_with (mkLockDoc 1 400) 500 []) (mkLockDoc 1 400))
    as (_ & _ & _ & Hrefused & _).
  - vm_compute. split; [discriminate | reflexivity].
  - reflexivity.
  - apply Hrefused. vm_compute. discriminate.
Defined.

Lemma NewAndLock_outcomes_witness :
  (NewAndLock order42 (world_with (mkLockDoc 0 7) 100000 [])).1 = (false, None) ∧
  (NewAndLock order42 (empty_world 100000 [])).1 = (true, None) ∧
  (NewAndLock order42
     (empty_world 100000 [mkEvent 5 (Some (OtherError "connection reset"))])).1 =
    (false, Some (OtherError "connection reset")).
Proof.
  split; [|split].
  - destruct (NewAndLock_outcomes order42 (world_with (mkLockDoc 0 7) 100000 []))
      as (_ & _ & _ & Htaken & _).
    apply Htaken; [reflexivity|]. by exists (mkLockDoc 0 7).
  - destruct (NewAndLock_outcomes order42 (empty_world 100000 []))
      as (_ & _ & _ & _ & Hfree).
    apply Hfree; reflexivity.
  - destruct (NewAndLock_outcomes order42
        (empty_world 100000 [mkEvent 5 (Some (OtherError "connection reset"))]))
      as (_ & Hother & _).
    apply Hother; [reflexivity|].
    intros (wes & we & Has & _). discriminate Has.
Defined.

Lemma UnlockAll_sets_unlocked_only_witness :
  let w := world_with (mkLockDoc 1 90000) 100000 [] in
  let w1 := (UnlockAll [order42] w).2 in
  let w2 := (UnlockAll [order42] w1).2 in
  coll w1 !! order42 = Some (mkLockDoc 0 90000) ∧
  coll w2 !! order42 = Some (mkLockDoc 0 90000).
Proof.
  destruct (UnlockAll_sets_unlocked_only [order42] order42
              (world_with (mkLockDoc 1 90000) 100000 [])) as [_ Hrec].
  destruct (Hrec (mkLockDoc 1 90000) eq_refl) as (_ & _ & Hlisted).
  apply Hlisted; [by apply list_elem_of_singleton | reflexivity].
Defined.

(** C8, the claim as stated fails.  A record is created and LOCKED while
    the clock reads 200000 and then released; the clock is set back to
    100000 during the release.  The next [Lock] finds the record
    UNLOCKED, acquires it and writes 100000 over 200000. *)
Lemma time_decreases_when_clock_is_behind_cex :
  let w0 := empty_world 200000 [mkEvent 0 None; mkEvent (-100000) None] in
  let w1 := run_op (Op_NewAndLock order42) w0 in
  let w2 := run_op (Op_UnlockAll [order42]) w1 in
  let w3 := run_op (Op_Lock NewMongodbMutexes order42) w2 in
  coll w2 !! order42 = Some (mkLockDoc 0 200000) ∧
  (Lock NewMongodbMutexes order42 w2).1 = (true, false, None) ∧
  coll w3 !! order42 = Some (mkLockDoc 1 100000) ∧
  100000 < 200000.
Proof.
  split; [by vm_compute|]. split; [by vm_compute|]. split; by vm_compute.
Qed.

Lemma time_written_by_acquire_only_witness :
  let w := world_with (mkLockDoc 0 90000) 100000 [] in
  coll (Lock NewMongodbMutexes order42 w).2 !! order42 =
    Some (mkLockDoc 1 (entry_currTime w)) ∧
  coll (NewAndLock order42 w).2 !! order42 = Some (mkLockDoc 0 90000).
Proof.
  destruct (time_written_by_acquire_only order42
              (world_with (mkLockDoc 0 90000) 100000 []) (mkLockDoc 0 90000) eq_refl)
    as (_ & HLock & _ & HNew & _).
  split; [|apply HNew].
  destruct (HLock NewMongodbMutexes order42) as (Hacq & _).
  apply Hacq; reflexivity.
Defined.

(** The clocks need not go back for a stamp to decrease.  A caller read
    its clock at 100 (lease 100) while the record was held; the holder
    releases, another caller locks at 200 and releases; the retry of the
    first caller then writes its reading of 100 over 200. *)
Example late_retry_overwrites_newer_stamp :
  let w0 := world_with (mkLockDoc 1 50) 100 [] in
  let w1 := (tryLock order42 100 0 w0).2 in
  let w2 := (UnlockAll [order42] w1).2 in
  let w3 := (tryLock order42 200 100 w2).2 in
  let w4 := (UnlockAll [order42] w3).2 in
  let w5 := (tryLock order42 100 0 w4).2 in
  (tryLock order42 100 0 w0).1 = (false, None) ∧
  coll w4 !! order42 = Some (mkLockDoc 0 200) ∧
  (tryLock order42 100 0 w4).1 = (true, None) ∧
  coll w5 !! order42 = Some (mkLockDoc 1 100).
Proof. split; [by vm_compute|]. split; [by vm_compute|]. split; by vm_compute. Qed.

(** Two callers read the clock at 100000 and race for a free record: the
    first acquires it, the second does not. *)
Lemma Lock_mutual_exclusion_witness :
  let w0 := world_with (mkLockDoc 0 0) 100000 [] in
  let s1 := caller_step (caller_at 100000) w0 in
  let s2 := caller_step (caller_at 100000) s1.2 in
  (acquired_count order42 [s1.1; s2.1] ≤ 1)%nat ∧
  (acquired_count order42 [s1.1; s2.1] = 1%nat →
   ∃ d, coll s2.2 !! order42 = Some d ∧ state d = 1).
Proof.
  intros w0 s1 s2.
  apply (Lock_mutual_exclusion order42 w0 s2.2
           [caller_at 100000; caller_at 100000] [s1.1; s2.1]).
  - repeat constructor.
  - intros a b Ha Hb _ _.
    apply elem_of_cons in Ha as [-> | Ha];
      [|apply list_elem_of_singleton in Ha as ->];
      (apply elem_of_cons in Hb as [-> | Hb];
        [|apply list_elem_of_singleton in Hb as ->]);
      vm_compute; discriminate.
  - eapply rtc_l.
    { apply (sys_step_caller w0 [] (caller_at 100000) [caller_at 100000] s1.1 s1.2).
      apply surjective_pairing. }
    eapply rtc_l; [|apply rtc_refl].
    apply (sys_step_caller s1.2 [s1.1] (caller_at 100000) [] s2.1 s2.2).
    apply surjective_pairing.
Defined.

(** C9 at a concrete store: [FindOne] fails with a transport error and
    [Load] answers with the error of [bson.Marshal] on the nil document,
    not with the transport error. *)
Lemma Load_drops_find_error_witness :
  picky_Load (Some (OtherError "connection reset")) order42 =
    ([], false, Some (OtherError "empty document")).
Proof.
  apply (Load_drops_find_error (T := list (string * Z)) [] [("_id", 0)]
           picky_Marshal sample_Unmarshal ∅ order42
           (OtherError "connection reset")).
  reflexivity.
Defined.

End Examples.

(** ** More about the mutexes *)

Section MutexMore.

Context {Id : Type} `{Countable Id}.

#[local] Abbreviation World := (World (Id := Id)).

(** The faults the script of the environment holds. *)
Lemma next_fault_in_script (w : World) (e : error) :
  ev_fault (next_event w) = Some e →
  ∃ ev, ev ∈ pending w ∧ ev_fault ev = Some e.
Proof.
  unfold next_event. destruct (pending w) as [|ev evs]; [done|].
  intros He. exists ev. split; [by left | done].
Qed.

Lemma sent_script (req : Request) (w : World) (ev : Event) :
  ev ∈ pending (sent req w) → ev ∈ pending w.
Proof.
  unfold sent, round_trip. cbn. destruct (pending w) as [|ev0 evs]; cbn; [done|].
  intros Hin. by right.
Qed.

Lemma Lock_retry_result (id : Id) (currTime unlockTime : Z) (n : nat) (w : World) :
  let r := (Lock_retry id currTime unlockTime n w).1 in
  r = (true, false, None) ∨ r = (false, false, None) ∨
  ∃ e ev, r = (false, false, Some e) ∧ is_ErrNoDocuments e = false ∧
          ev ∈ pending w ∧ ev_fault ev = Some e.
Proof.
  revert w. induction n as [|n IH]; intros w; [by right; left|].
  rewrite Lock_retry_S, tryLock_eq. cbn zeta.
  set (req := tryLock_request id currTime unlockTime).
  assert (Hnext : let r := (Lock_retry id currTime unlockTime n (sent req w)).1 in
    r = (true, false, None) ∨ r = (false, false, None) ∨
    ∃ e ev, r = (false, false, Some e) ∧ is_ErrNoDocuments e = false ∧
            ev ∈ pending w ∧ ev_fault ev = Some e).
  { destruct (IH (sent req w)) as [Hr | [Hr | (e & ev & Hr & He & Hin & Hev)]]; auto.
    right; right. exists e, ev.
    split; [done|]. split; [done|]. split; [|done]. by apply (sent_script req). }
  destruct (ev_fault (next_event w)) as [e|] eqn:Hf.
  { destruct (is_ErrNoDocuments e) eqn:He; [exact Hnext|].
    destruct (next_fault_in_script w e Hf) as (ev & Hin & Hev).
    right; right. by exists e, ev. }
  destruct (coll w !! id) as [d|]; [|exact Hnext].
  destruct (acquirable unlockTime d); [by left | exact Hnext].
Qed.

(** [Lock] has four outcomes and no other: acquired, absent, gave up, or
    an error; the error is one the store reported during the call, never
    the no-documents sentinel, and comes with [ok = false] and
    [absent = false]. *)
Theorem Lock_result_shape (mutexes : MongodbMutexes) (id : Id) (w : World) :
  let r := (Lock mutexes id w).1 in
  r = (true, false, None) ∨ r = (false, true, None) ∨ r = (false, false, None) ∨
  ∃ e ev, r = (false, false, Some e) ∧ is_ErrNoDocuments e = false ∧
          ev ∈ pending w ∧ ev_fault ev = Some e.
Proof.
  rewrite Lock_eq. cbn zeta. rewrite tryLock_eq. cbn zeta.
  set (cur := entry_currTime w). set (unl := entry_unlockTime mutexes w).
  set (req := tryLock_request id cur unl).
  assert (Hrest :
    let x := (let '((found, err), w2) := exists_ id (sent req w) in
              match err with
              | Some e => ((false, false, Some e), w2)
              | None => if negb found then ((false, true, None), w2)
                        else Lock_retry id cur unl (Z.to_nat (lockRetryCount mutexes)) w2
              end) in
    x.1 = (true, false, None) ∨ x.1 = (false, true, None) ∨ x.1 = (false, false, None) ∨
    ∃ e ev, x.1 = (false, false, Some e) ∧ is_ErrNoDocuments e = false ∧
            ev ∈ pending w ∧ ev_fault ev = Some e).
  { rewrite exists_eq. cbn zeta. set (w1 := sent req w).
    destruct (ev_fault (next_event w1)) as [e|] eqn:Hf.
    { destruct (is_ErrNoDocuments e) eqn:He; [by right; left|].
      destruct (next_fault_in_script w1 e Hf) as (ev & Hin & Hev).
      right; right; right. exists e, ev.
      split; [done|]. split; [done|]. split; [|done]. by apply (sent_script req). }
    destruct (present id (coll w1)); cbn [negb]; [|by right; left].
    destruct (Lock_retry_result id cur unl (Z.to_nat (lockRetryCount mutexes))
                (sent (ReqFindOne (F_id id)) w1))
      as [Hr | [Hr | (e & ev & Hr & He & Hin & Hev)]]; auto.
    right; right; right. exists e, ev.
    split; [done|]. split; [done|]. split; [|done].
    by apply (sent_script req), (sent_script (ReqFindOne (F_id id))). }
  destruct (ev_fault (next_event w)) as [e|] eqn:Hf.
  { destruct (is_ErrNoDocuments e) eqn:He; [exact Hrest|].
    destruct (next_fault_in_script w e Hf) as (ev & Hin & Hev).
    right; right; right. by exists e, ev. }
  destruct (coll w !! id) as [d|]; [|exact Hrest].
  destruct (acquirable unl d); [by left | exact Hrest].
Qed.

(** After a call that acquired, the record is LOCKED and stamped. *)
Lemma Lock_acquired_record (mutexes : MongodbMutexes) (id : Id) (w : World) :
  (Lock mutexes id w).1.1.1 = true →
  coll (Lock mutexes id w).2 !! id = Some (mkLockDoc 1 (entry_currTime w)).
Proof.
  intros Hok.
  destruct (Lock_cases mutexes id w) as [[_ (d & _ & _ & ->)] | [Hr _]];
    [by rewrite lookup_insert_eq | congruence].
Qed.

(** [Lock id] touches no record but the one of [id], creates none and
    deletes none; when it returns without an error and has not acquired,
    it leaves the collection as it was, and when it has acquired, the
    record is LOCKED and stamped with the clock reading taken on entry. *)
Theorem Lock_frame (mutexes : MongodbMutexes) (id : Id) (w : World) :
  let r := (Lock mutexes id w).1 in
  let w' := (Lock mutexes id w).2 in
  (∀ i, i ≠ id → coll w' !! i = coll w !! i) ∧
  dom (coll w') = dom (coll w) ∧
  (r.1.1 = false → r.2 = None → coll w' = coll w) ∧
  (r.1.1 = true → is_Some (coll w !! id) ∧
                  coll w' !! id = Some (mkLockDoc 1 (entry_currTime w))).
Proof.
  cbn zeta.
  destruct (Lock_cases mutexes id w) as [[Hr (d & Hd & _ & Hc)] | [Hr Hc]];
    rewrite Hc.
  - rewrite Hr. cbn. split; [|split; [|split]].
    + intros i Hne. by rewrite lookup_insert_ne.
    + rewrite dom_insert_L. apply elem_of_dom_2 in Hd.
      apply subseteq_union_1_L. by apply singleton_subseteq_l.
    + done.
    + intros _. split; [by exists d | by rewrite lookup_insert_eq].
  - split; [done|]. split; [done|]. split; [done|]. intros Ht. congruence.
Qed.

(** [Lock] makes at most two round trips plus one for each retry it is
    allowed; with a retry count of zero or less, at most two. *)
Theorem Lock_round_trips_bounded (mutexes : MongodbMutexes) (id : Id) (w : World) :
  let sent_by_call := (length (log (Lock mutexes id w).2) - length (log w))%nat in
  (1 ≤ sent_by_call ≤ 2 + Z.to_nat (lockRetryCount mutexes))%nat ∧
  (lockRetryCount mutexes ≤ 0 → (sent_by_call ≤ 2)%nat).
Proof.
  cbn zeta.
  rewrite <- (length_fmap snd (log (Lock mutexes id w).2)),
          <- (length_fmap snd (log w)).
  destruct (Lock_log mutexes id w) as [-> | (k & Hk & ->)];
    rewrite length_app; cbn [length]; rewrite ?length_replicate; split; lia.
Qed.

(** An error of the first round trip other than the sentinel ends the
    call: [Lock] returns it as it is, with [ok = false] and
    [absent = false], and sends neither the probe nor a retry after that
    single request. *)
Theorem Lock_first_fault_returned (mutexes : MongodbMutexes) (id : Id)
    (w : World) (e : error) :
  ev_fault (next_event w) = Some e →
  is_ErrNoDocuments e = false →
  (Lock mutexes id w).1 = (false, false, Some e) ∧
  (log (Lock mutexes id w).2).*2 =
    (log w).*2 ++ [tryLock_request id (entry_currTime w) (entry_unlockTime mutexes w)].
Proof.
  intros Hf He. rewrite Lock_eq. cbn zeta. rewrite tryLock_eq. cbn zeta.
  rewrite Hf, He. cbn. by rewrite fmap_app.
Qed.

Lemma Lock_acquires_unlocked_aux (mutexes : MongodbMutexes) (id : Id)
    (w : World) (d : LockDoc) :
  coll w !! id = Some d →
  state d = 0 →
  ev_fault (next_event w) = None →
  (Lock mutexes id w).1 = (true, false, None) ∧
  coll (Lock mutexes id w).2 = <[id := mkLockDoc 1 (entry_currTime w)]> (coll w).
Proof.
  intros Hd Hs Hf.
  assert (Ha : acquirable (entry_unlockTime mutexes w) d = true).
  { unfold acquirable. by rewrite Hs. }
  by rewrite (Lock_free_run mutexes id w d Hf Hd Ha).
Qed.

(** An UNLOCKED record is acquired by the first request whatever its
    timestamp is: the call makes one round trip and the record becomes
    LOCKED with the caller's clock reading. *)
Theorem Lock_acquires_unlocked (mutexes : MongodbMutexes) (id : Id)
    (w : World) (d : LockDoc) :
  coll w !! id = Some d →
  state d = 0 →
  ev_fault (next_event w) = None →
  (Lock mutexes id w).1 = (true, false, None) ∧
  coll (Lock mutexes id w).2 = <[id := mkLockDoc 1 (entry_currTime w)]> (coll w) ∧
  (log (Lock mutexes id w).2).*2 =
    (log w).*2 ++ [tryLock_request id (entry_currTime w) (entry_unlockTime mutexes w)].
Proof.
  intros Hd Hs Hf.
  assert (Ha : acquirable (entry_unlockTime mutexes w) d = true).
  { unfold acquirable. by rewrite Hs. }
  rewrite (Lock_free_run mutexes id w d Hf Hd Ha). cbn. by rewrite fmap_app.
Qed.

(** What [Lock] writes holds for the lease: after a call that acquired
    the record when the clock read [t], a call whose clock reads at most
    [t + maxLockTime] (and at least [maxLockTime], so that the threshold
    does not wrap) gives up, under any retry count, and changes nothing. *)
Theorem Lock_excludes_within_lease (mutexes mutexes' : MongodbMutexes) (id : Id)
    (w w2 : World) :
  (Lock mutexes id w).1.1.1 = true →
  0 ≤ clock w < u64_modulus →
  coll w2 = coll (Lock mutexes id w).2 →
  fault_free (pending w2) = true →
  0 ≤ maxLockTime mutexes' ≤ clock w2 →
  clock w2 ≤ clock w + maxLockTime mutexes' →
  clock w2 < u64_modulus →
  (Lock mutexes' id w2).1 = (false, false, None) ∧
  coll (Lock mutexes' id w2).2 = coll w2.
Proof.
  intros Hok Hc Hcoll Hff Hm Hle Hc2.
  pose proof (Lock_acquired_record mutexes id w Hok) as Hrec.
  rewrite <- Hcoll in Hrec.
  destruct (entry_no_wrap mutexes' w2 Hm Hc2) as [_ Hunl].
  assert (Hcur : entry_currTime w = clock w).
  { unfold entry_currTime, uint64. apply Z.mod_small. lia. }
  assert (Ha : acquirable (entry_unlockTime mutexes' w2)
                 (mkLockDoc 1 (entry_currTime w)) = false).
  { unfold acquirable. cbn. apply Z.ltb_ge. lia. }
  destruct (Lock_held_run mutexes' id w2 _ Hff Hrec Ha) as (Hr & Hcl & _). done.
Qed.

(** Acquire, release, acquire: after [UnlockAll] of a list that holds
    [id], the next [Lock id] acquires the record at once, whatever the
    clock reads and however short ago it was locked. *)
Theorem Lock_after_UnlockAll (mutexes mutexes' : MongodbMutexes) (id : Id)
    (ids : list Id) (w : World) :
  let w1 := (Lock mutexes id w).2 in
  let w2 := (UnlockAll ids w1).2 in
  (Lock mutexes id w).1.1.1 = true →
  id ∈ ids →
  fault_free (pending w1) = true →
  coll w2 !! id = Some (mkLockDoc 0 (entry_currTime w)) ∧
  (Lock mutexes' id w2).1 = (true, false, None) ∧
  coll (Lock mutexes' id w2).2 !! id = Some (mkLockDoc 1 (entry_currTime w2)).
Proof.
  intros w1 w2 Hok Hin Hff.
  pose proof (Lock_acquired_record mutexes id w Hok) as Hrec. fold w1 in Hrec.
  pose proof (UnlockAll_unlocks ids id w1 _ Hff Hin Hrec) as Hun.
  fold w2 in Hun. change (time (mkLockDoc 1 (entry_currTime w))) with (entry_currTime w) in Hun.
  pose proof (UnlockAll_fault_free ids w1 Hff) as Hff2. fold w2 in Hff2.
  destruct (fault_free_next (ReqFindOne (F_id id)) w2 Hff2) as [Hf _].
  destruct (Lock_acquires_unlocked_aux mutexes' id w2 _ Hun eq_refl Hf) as (Hr & Hc).
  split; [done|]. split; [done|]. by rewrite Hc, lookup_insert_eq.
Qed.

(** *** Creating the record *)

(** With a record for [id] in the collection, [NewAndLock id] never
    reports [ok = true] and never changes the collection, whatever the
    store reports; in any case it leaves every record there is as it was;
    and when it does report [ok = true], there was no record and the
    collection gains exactly the LOCKED one. *)
Theorem NewAndLock_frame (id : Id) (w : World) :
  let r := (NewAndLock id w).1 in
  let w' := (NewAndLock id w).2 in
  (is_Some (coll w !! id) → r.1 = false ∧ coll w' = coll w) ∧
  (∀ i d, coll w !! i = Some d → coll w' !! i = Some d) ∧
  (r.1 = true → coll w !! id = None ∧
                coll w' = <[id := mkLockDoc 1 (entry_currTime w)]> (coll w)).
Proof.
  cbn zeta. split; [|split].
  - intros [d Hd]. rewrite NewAndLock_eq. cbn zeta. rewrite InsertOne_eq. cbn zeta.
    destruct (ev_fault (next_event w)) as [e|]; cbn.
    + by destruct (isDup e).
    + by rewrite Hd.
  - intros i d. apply NewAndLock_lookup.
  - rewrite NewAndLock_eq. cbn zeta. rewrite InsertOne_eq. cbn zeta.
    destruct (ev_fault (next_event w)) as [e|]; cbn.
    + by destruct (isDup e).
    + by destruct (coll w !! id).
Qed.

Lemma Lock_absent_world (mutexes : MongodbMutexes) (id : Id) (w : World) :
  fault_free (pending w) = true →
  coll w !! id = None →
  (Lock mutexes id w).1 = (false, true, None) ∧
  coll (Lock mutexes id w).2 = coll w ∧
  fault_free (pending (Lock mutexes id w).2) = true.
Proof.
  intros Hff Hd. rewrite (Lock_absent_run mutexes id w Hff Hd). cbn [fst snd].
  set (req := tryLock_request id (entry_currTime w) (entry_unlockTime mutexes w)).
  destruct (fault_free_next req w Hff) as [_ Hff1].
  destruct (fault_free_next (ReqFindOne (F_id id)) (sent req w) Hff1) as [_ Hff2].
  done.
Qed.

(** The path for a new identity: [Lock] reports it absent, [NewAndLock]
    then creates the record LOCKED and stamped with its own clock
    reading, and a second [NewAndLock] gets [ok = false] with no error
    and leaves that record alone. *)
Theorem Lock_absent_then_NewAndLock (mutexes : MongodbMutexes) (id : Id) (w : World) :
  let w1 := (Lock mutexes id w).2 in
  let w2 := (NewAndLock id w1).2 in
  fault_free (pending w) = true →
  coll w !! id = None →
  (Lock mutexes id w).1 = (false, true, None) ∧
  (NewAndLock id w1).1 = (true, None) ∧
  coll w2 !! id = Some (mkLockDoc 1 (entry_currTime w1)) ∧
  (NewAndLock id w2).1 = (false, None) ∧
  coll (NewAndLock id w2).2 = coll w2.
Proof.
  intros w1 w2 Hff Hd.
  destruct (Lock_absent_world mutexes id w Hff Hd) as (Hr & Hc & Hff1).
  fold w1 in Hc, Hff1.
  assert (Hd1 : coll w1 !! id = None) by (by rewrite Hc).
  destruct (fault_free_next (ReqFindOne (F_id id)) w1 Hff1) as [Hf1 _].
  assert (Hnew : NewAndLock id w1 =
    ((true, None), with_coll (<[id := mkLockDoc 1 (entry_currTime w1)]> (coll w1))
                     (sent (ReqInsertOne id (mkLockDoc 1 (entry_currTime w1))) w1))).
  { rewrite NewAndLock_eq. cbn zeta. rewrite InsertOne_eq. cbn zeta.
    by rewrite Hf1, Hd1. }
  assert (Hrec : coll w2 !! id = Some (mkLockDoc 1 (entry_currTime w1))).
  { unfold w2. rewrite Hnew. cbn. by rewrite lookup_insert_eq. }
  assert (Hf2 : ev_fault (next_event w2) = None).
  { destruct (fault_free_next (ReqInsertOne id (mkLockDoc 1 (entry_currTime w1)))
                w1 Hff1) as [_ Hff2].
    apply (fault_free_next (ReqFindOne (F_id id)) w2).
    unfold w2. by rewrite Hnew. }
  split; [done|]. split; [by rewrite Hnew|]. split; [done|].
  rewrite NewAndLock_eq. cbn zeta. rewrite InsertOne_eq. cbn zeta.
  by rewrite Hf2, Hrec.
Qed.

(** After [NewAndLock] created the record, a [Lock] within the lease is
    told neither "absent" nor "acquired": it gives up. *)
Theorem Lock_after_NewAndLock (mutexes : MongodbMutexes) (id : Id) (w w2 : World) :
  (NewAndLock id w).1.1 = true →
  0 ≤ clock w < u64_modulus →
  coll w2 = coll (NewAndLock id w).2 →
  fault_free (pending w2) = true →
  0 ≤ maxLockTime mutexes ≤ clock w2 →
  clock w2 ≤ clock w + maxLockTime mutexes →
  clock w2 < u64_modulus →
  (Lock mutexes id w2).1 = (false, false, None) ∧
  coll (Lock mutexes id w2).2 = coll w2.
Proof.
  intros Hok Hc Hcoll Hff Hm Hle Hc2.
  assert (Hrec : coll w2 !! id = Some (mkLockDoc 1 (entry_currTime w))).
  { rewrite Hcoll. revert Hok. rewrite NewAndLock_eq. cbn zeta.
    rewrite InsertOne_eq. cbn zeta.
    destruct (ev_fault (next_event w)) as [e|]; cbn.
    - by destruct (isDup e).
    - destruct (coll w !! id); [done|]. cbn. intros _. by rewrite lookup_insert_eq. }
  destruct (entry_no_wrap mutexes w2 Hm Hc2) as [_ Hunl].
  assert (Hcur : entry_currTime w = clock w).
  { unfold entry_currTime, uint64. apply Z.mod_small. lia. }
  assert (Ha : acquirable (entry_unlockTime mutexes w2)
                 (mkLockDoc 1 (entry_currTime w)) = false).
  { unfold acquirable. cbn. apply Z.ltb_ge. lia. }
  destruct (Lock_held_run mutexes id w2 _ Hff Hrec Ha) as (Hr & Hcl & _). done.
Qed.

(** *** Releasing *)

Lemma UpdateOne_sent (f : Filter) (u : list SetField) (w : World) :
  log (UpdateOne f u w).2 = log w ++ [(clock w, ReqUpdateOne f u)] ∧
  pending (UpdateOne f u w).2 = tail (pending w).
Proof.
  unfold UpdateOne, bind, round_trip, get_coll, put_coll, ret. simpl.
  destruct (ev_fault (next_event w)) as [e|]; [done|].
  by destruct (find_one f _) as [[k d]|].
Qed.

(** [UnlockAll] sends one release for every identity of the list, in the
    order of the list, whatever the store answers: a failed release does
    not end the loop. *)
Theorem UnlockAll_requests (ids : list Id) (w : World) :
  (log (UnlockAll ids w).2).*2 =
    (log w).*2 ++ ((λ id, ReqUpdateOne (F_id id) [Set_state 0]) <$> ids).
Proof.
  revert w. induction ids as [|id rest IH]; intros w.
  - cbn. by rewrite app_nil_r.
  - rewrite UnlockAll_cons, IH.
    destruct (UpdateOne_sent (F_id id) [Set_state 0] w) as [-> _].
    rewrite fmap_app, <- app_assoc. done.
Qed.

(** A release that the store serves takes effect even when releases
    before or after it in the same call fail: if the round trip of the
    [k]-th identity reports no fault, its record ends UNLOCKED. *)
Theorem UnlockAll_past_failures (ids : list Id) (k : nat) (i : Id)
    (w : World) (d : LockDoc) :
  ids !! k = Some i →
  (∀ ev, pending w !! k = Some ev → ev_fault ev = None) →
  coll w !! i = Some d →
  coll (UnlockAll ids w).2 !! i = Some (mkLockDoc 0 (time d)).
Proof.
  revert k w d. induction ids as [|id rest IH]; intros k w d Hk Hev Hd; [done|].
  rewrite UnlockAll_cons.
  set (w1 := (UpdateOne (F_id id) [Set_state 0] w).2).
  destruct k as [|k].
  - injection Hk as ->.
    assert (Hf : ev_fault (next_event w) = None).
    { unfold next_event. destruct (pending w) as [|ev evs]; [done|]. by apply Hev. }
    assert (H1 : coll w1 !! i = Some (mkLockDoc 0 (time d))).
    { unfold w1. rewrite UpdateOne_unlock_eq. cbn zeta. rewrite Hf, Hd. cbn.
      by rewrite lookup_insert_eq. }
    pose proof (UnlockAll_lookup rest i w1) as H2. cbn zeta in H2.
    rewrite H1 in H2. by destruct H2 as [H2 | [_ H2]].
  - cbn in Hk.
    destruct (UpdateOne_sent (F_id id) [Set_state 0] w) as [_ Hp]. fold w1 in Hp.
    assert (Hev1 : ∀ ev, pending w1 !! k = Some ev → ev_fault ev = None).
    { intros ev Hl. apply Hev. rewrite Hp in Hl.
      destruct (pending w) as [|ev0 evs]; [done | exact Hl]. }
    pose proof (UpdateOne_unlock_lookup id i w) as H1. cbn zeta in H1.
    fold w1 in H1. rewrite Hd in H1.
    destruct H1 as [H1 | [_ H1]].
    + by apply (IH k w1 d).
    + by apply (IH k w1 (mkLockDoc 0 (time d))).
Qed.

(** *** Callers running interleaved *)

(** Under any interleaving, callers of [Lock] create no record and delete
    none: the identities that have a record stay the same. *)
Theorem sys_steps_keep_identities (s s' : World * list (Caller (Id := Id))) :
  rtc sys_step s s' → dom (coll s'.1) = dom (coll s.1).
Proof.
  induction 1 as [s | s1 s2 s3 Hstep _ IH]; [done|].
  rewrite IH. clear IH. inversion Hstep as [w cs1 c cs2 c' w' Hc]; subst. cbn.
  destruct (caller_step_cases c w) as [_ Hcases].
  rewrite Hc in Hcases. cbn [fst snd] in Hcases.
  destruct Hcases as [[-> _] | (_ & _ & d & Hd & _ & ->)]; [done|].
  rewrite dom_insert_L. apply elem_of_dom_2 in Hd.
  apply subseteq_union_1_L. by apply singleton_subseteq_l.
Qed.

End MutexMore.

(** ** More about the store and the repository *)

Section StoreMore.

Context {Id Value T : Type}.

#[local] Abbreviation StoreWorld := (StoreWorld (Id := Id) (T := T)).
#[local] Abbreviation StoreRequest := (StoreRequest (Id := Id) (T := T)).

Lemma call_each_all_served (reqs : list StoreRequest) (w : StoreWorld) :
  Forall (λ outcome, outcome = None) (take (length reqs) (sw_pending w)) →
  call_each reqs w =
    (None, mkStoreWorld (sw_log w ++ reqs) (drop (length reqs) (sw_pending w))).
Proof.
  revert w. induction reqs as [|req rest IH]; intros [l p] Hall; cbn.
  - by rewrite app_nil_r.
  - unfold store_call. cbn in *. destruct p as [|o p]; cbn in *.
    + rewrite IH; cbn; [|by rewrite take_nil].
      by rewrite drop_nil, <- app_assoc.
    + apply Forall_cons in Hall as [-> Hall].
      rewrite IH; cbn; [|done]. by rewrite <- app_assoc.
Qed.

Lemma call_each_stops (reqs : list StoreRequest) (w : StoreWorld)
    (k : nat) (e : error) (rest : list (option error)) :
  sw_pending w = replicate k None ++ Some e :: rest →
  (k < length reqs)%nat →
  call_each reqs w = (Some e, mkStoreWorld (sw_log w ++ take (S k) reqs) rest).
Proof.
  revert reqs w. induction k as [|k IH]; intros reqs [l p] Hp Hk; cbn in Hp; subst p.
  - destruct reqs as [|req reqs]; [cbn in Hk; lia|]. cbn. by rewrite take_0.
  - destruct reqs as [|req reqs]; [cbn in Hk; lia|]. cbn in Hk.
    cbn [call_each]. unfold store_call. cbn [sw_pending sw_log tail].
    rewrite (IH reqs (mkStoreWorld (l ++ [req]) (replicate k None ++ Some e :: rest))
               eq_refl) by lia.
    cbn. by rewrite <- app_assoc.
Qed.

Lemma SaveAll_updates_call_each (entitiesToUpdate : list (Id * T)) (w : StoreWorld) :
  SaveAll_updates entitiesToUpdate w =
    call_each (map (λ kv, SReqReplaceOne kv.1 kv.2) entitiesToUpdate) w.
Proof.
  revert w. induction entitiesToUpdate as [|[k v] rest IH]; intros w; [done|].
  cbn -[store_call].
  destruct (store_call (SReqReplaceOne k v) w) as [[e|] w']; [done | apply IH].
Qed.

Lemma SaveAll_call_each (entitiesToInsert entitiesToUpdate : list (Id * T)) (w : StoreWorld) :
  SaveAll entitiesToInsert entitiesToUpdate w =
    call_each (SaveAll_plan entitiesToInsert entitiesToUpdate) w.
Proof.
  unfold SaveAll, SaveAll_plan.
  destruct entitiesToInsert as [|kv ins]; cbn -[store_call].
  - apply SaveAll_updates_call_each.
  - destruct (store_call _ w) as [[e|] w']; [done | apply SaveAll_updates_call_each].
Qed.

Lemma RemoveAll_call_each (ids : list Id) (w : StoreWorld) :
  RemoveAll ids w = call_each (map SReqDeleteOne ids) w.
Proof.
  revert w. induction ids as [|id rest IH]; intros w; [done|].
  cbn -[store_call].
  destruct (store_call (SReqDeleteOne id) w) as [[e|] w']; [done | apply IH].
Qed.

(** [SaveAll] sends one [InsertMany] with all the entities to insert,
    unless there is none, and then one [ReplaceOne] for each entity to
    update, in order.  When none of these fails it returns nil; when one
    fails it returns that error and sends nothing after it: a failed
    [InsertMany] leaves every update unsent. *)
Theorem SaveAll_stops_at_first_failure
    (entitiesToInsert entitiesToUpdate : list (Id * T)) (w : StoreWorld) :
  let plan := SaveAll_plan entitiesToInsert entitiesToUpdate in
  (Forall (λ outcome, outcome = None) (take (length plan) (sw_pending w)) →
   SaveAll entitiesToInsert entitiesToUpdate w =
     (None, mkStoreWorld (sw_log w ++ plan) (drop (length plan) (sw_pending w)))) ∧
  (∀ k e rest,
     sw_pending w = replicate k None ++ Some e :: rest →
     (k < length plan)%nat →
     SaveAll entitiesToInsert entitiesToUpdate w =
       (Some e, mkStoreWorld (sw_log w ++ take (S k) plan) rest)).
Proof.
  cbn zeta. rewrite SaveAll_call_each. split.
  - apply call_each_all_served.
  - intros k e rest. apply call_each_stops.
Qed.

(** [RemoveAll] sends one [DeleteOne] for each identity, in order.  When
    none fails it returns nil; when one fails it returns that error and
    the identities after it are not deleted: no request is sent for them. *)
Theorem RemoveAll_stops_at_first_failure (ids : list Id) (w : StoreWorld) :
  (Forall (λ outcome, outcome = None) (take (length ids) (sw_pending w)) →
   RemoveAll ids w =
     (None, mkStoreWorld (sw_log w ++ map SReqDeleteOne ids)
                         (drop (length ids) (sw_pending w)))) ∧
  (∀ k e rest,
     sw_pending w = replicate k None ++ Some e :: rest →
     (k < length ids)%nat →
     RemoveAll ids w =
       (Some e, mkStoreWorld (sw_log w ++ map SReqDeleteOne (take (S k) ids)) rest)).
Proof.
  rewrite RemoveAll_call_each. split.
  - intros Hall. rewrite call_each_all_served; rewrite length_map; done.
  - intros k e rest Hp Hk.
    rewrite (call_each_stops _ w k e rest Hp); [|by rewrite length_map].
    by rewrite <- (fmap_take SReqDeleteOne).
Qed.

Variable zero_T : T.
Variable newZeroEntity : T.
Variable bson_Marshal : bsonD (Value := Value) → list Byte.byte + error.
Variable bson_Marshal_int : Z → list Byte.byte + error.
Variable bson_Unmarshal : list Byte.byte → T → T.
Variable first_field : T → Id.

#[local] Abbreviation decoded' := (decoded newZeroEntity bson_Marshal bson_Unmarshal).

Lemma QueryAllByField_loop_ok (results : list bsonD) (entities : list T) :
  Forall (λ result, ∃ doc, bson_Marshal result = inl doc) results →
  QueryAllByField_loop newZeroEntity bson_Marshal bson_Unmarshal results entities =
    (Some (entities ++ map decoded' results), None).
Proof.
  revert entities. induction results as [|result rest IH]; intros entities Hall; cbn.
  - by rewrite app_nil_r.
  - apply Forall_cons in Hall as [[doc Hdoc] Hall].
    rewrite Hdoc, IH by done. unfold decoded at 2. rewrite Hdoc.
    by rewrite <- app_assoc.
Qed.

Lemma QueryAllByField_loop_fails (ok : list bsonD) (bad : bsonD) (rest : list bsonD)
    (err : error) (entities : list T) :
  Forall (λ result, ∃ doc, bson_Marshal result = inl doc) ok →
  bson_Marshal bad = inr err →
  QueryAllByField_loop newZeroEntity bson_Marshal bson_Unmarshal
    (ok ++ bad :: rest) entities = (None, Some err).
Proof.
  revert entities. induction ok as [|result ok IH]; intros entities Hall Hbad; cbn.
  - by rewrite Hbad.
  - apply Forall_cons in Hall as [[doc Hdoc] Hall]. rewrite Hdoc. by apply IH.
Qed.

(** [QueryAllByField] is all or nothing.  When every document found can
    be marshalled it returns one entity for each, in the order of the
    cursor, and no error; when one cannot, it returns the nil slice and
    the error of the first such document, and none of the entities
    decoded before it. *)
Theorem QueryAllByField_all_or_nothing (find : string → Value → FindAnswer)
    (fieldName : string) (fieldValue : Value) (results : list bsonD) :
  let query := QueryAllByField newZeroEntity bson_Marshal bson_Unmarshal (Some find)
                               fieldName fieldValue in
  find fieldName fieldValue = All_docs results →
  (Forall (λ result, ∃ doc, bson_Marshal result = inl doc) results →
   query = (Some (map decoded' results), None)) ∧
  (∀ ok bad rest err,
     results = ok ++ bad :: rest →
     Forall (λ result, ∃ doc, bson_Marshal result = inl doc) ok →
     bson_Marshal bad = inr err →
     query = (None, Some err)).
Proof.
  cbn zeta. intros Hfind. unfold QueryAllByField. rewrite Hfind. split.
  - intros Hall. by rewrite QueryAllByField_loop_ok.
  - intros ok bad rest err -> Hall Hbad. by apply QueryAllByField_loop_fails.
Qed.

(** [QueryAllIds] does not read the documents it finds: its loop ranges
    over the indices of the result and marshals the index.  So its answer
    depends on the documents only through their number; and where
    [bson.Marshal] refuses an [int], as the driver does, it returns the
    nil slice and that error as soon as one document is found, and the
    empty list when none is. *)
Theorem QueryAllIds_marshals_indices :
  let query := QueryAllIds newZeroEntity bson_Marshal_int bson_Unmarshal first_field in
  (∀ results results' : list (bsonD (Value := Value)),
     length results = length results' →
     query (Some (All_docs results)) = query (Some (All_docs results'))) ∧
  (∀ (err : error) (results : list (bsonD (Value := Value))),
     bson_Marshal_int 0 = inr err →
     results ≠ [] →
     query (Some (All_docs results)) = (None, Some err)) ∧
  query (Some (All_docs [])) = (Some [], None).
Proof.
  cbn zeta. split; [|split].
  - intros results results' Hlen. unfold QueryAllIds. by rewrite Hlen.
  - intros err results Herr Hne. unfold QueryAllIds.
    destruct results as [|result rest]; [done|].
    cbn [length seq QueryAllIds_loop]. change (Z.of_nat 0) with 0. by rewrite Herr.
  - done.
Qed.

End StoreMore.

Section LoadMore.

Context {Id : Type} `{Countable Id}.
Context {Value T : Type}.
Variable zero_T : T.
Variable newZeroEntity : T.
Variable bson_Marshal : bsonD (Value := Value) → list Byte.byte + error.
Variable bson_Unmarshal : list Byte.byte → T → T.

(** [Load] when the store answers: without a document for the identity
    (or when the no-documents sentinel is reported) it returns the zero
    entity, [found = false] and no error; with a document that can be
    marshalled, the entity decoded from it and [found = true]; with one
    that cannot, the zero entity, [found = false] and the error of
    [bson.Marshal]. *)
Theorem Load_outcomes (docs : gmap Id bsonD) (id : Id) :
  let load := Load zero_T newZeroEntity bson_Marshal bson_Unmarshal docs in
  load (Some ErrNoDocuments) id = (zero_T, false, None) ∧
  (docs !! id = None → load None id = (zero_T, false, None)) ∧
  (∀ d doc, docs !! id = Some d → bson_Marshal d = inl doc →
            load None id = (bson_Unmarshal doc newZeroEntity, true, None)) ∧
  (∀ d err, docs !! id = Some d → bson_Marshal d = inr err →
            load None id = (zero_T, false, Some err)).
Proof.
  cbn zeta. unfold Load, Store_FindOne, SingleResult_Err, SingleResult_Decode.
  split; [done|]. split; [|split].
  - by intros ->.
  - intros d doc -> Hm. cbn. by rewrite Hm.
  - intros d err -> Hm. cbn. by rewrite Hm.
Qed.

End LoadMore.

Lemma string_length_append (a b : string) :
  String.length (String.append a b) = (String.length a + String.length b)%nat.
Proof.
  induction a as [|c a IH]; [done|].
  change (String.append (String c a) b) with (String c (String.append a b)).
  cbn [String.length]. by rewrite IH.
Qed.

(** The lock records of a collection are kept in another collection than
    its entities, and two collections never share the collection of
    their lock records. *)
Theorem mutexes_collection_apart (collection collection' : string) :
  mutexes_collection collection ≠ collection ∧
  (mutexes_collection collection = mutexes_collection collection' →
   collection = collection').
Proof.
  split.
  - intros Heq. apply (f_equal String.length) in Heq.
    unfold mutexes_collection in Heq. rewrite string_length_append in Heq.
    cbn [String.length] in Heq. lia.
  - unfold mutexes_collection. apply String.app_inj.
Qed.

(** ** More examples *)

Section MoreExamples.

Import Scenario.

Lemma Lock_frame_witness :
  let w := world_with (mkLockDoc 0 7) 100000 [] in
  is_Some (coll w !! order42) ∧
  coll (Lock NewMongodbMutexes order42 w).2 !! order42 =
    Some (mkLockDoc 1 (entry_currTime w)).
Proof.
  destruct (Lock_frame NewMongodbMutexes order42
              (world_with (mkLockDoc 0 7) 100000 [])) as (_ & _ & _ & Hacq).
  apply Hacq. reflexivity.
Defined.

(** A negative retry count is a retry count of zero. *)
Lemma Lock_round_trips_bounded_witness :
  let w := world_with (mkLockDoc 1 90000) 100000 [] in
  (length (log (Lock (mkMutexes (-5) 60000) order42 w).2) - length (log w) ≤ 2)%nat.
Proof.
  destruct (Lock_round_trips_bounded (mkMutexes (-5) 60000) order42
              (world_with (mkLockDoc 1 90000) 100000 [])) as [_ Hzero].
  apply Hzero. vm_compute. discriminate.
Defined.

Lemma Lock_first_fault_returned_witness :
  let w := world_with (mkLockDoc 0 7) 100000
             [mkEvent 5 (Some (OtherError "connection reset"))] in
  (Lock NewMongodbMutexes order42 w).1 =
    (false, false, Some (OtherError "connection reset")) ∧
  (log (Lock NewMongodbMutexes order42 w).2).*2 =
    (log w).*2 ++ [tryLock_request order42 (entry_currTime w)
                     (entry_unlockTime NewMongodbMutexes w)].
Proof.
  apply (Lock_first_fault_returned NewMongodbMutexes order42
           (world_with (mkLockDoc 0 7) 100000
              [mkEvent 5 (Some (OtherError "connection reset"))])
           (OtherError "connection reset")); reflexivity.
Defined.

(** An UNLOCKED record stamped in the future is acquired all the same. *)
Lemma Lock_acquires_unlocked_witness :
  let w := world_with (mkLockDoc 0 999999) 100000 [] in
  (Lock NewMongodbMutexes order42 w).1 = (true, false, None) ∧
  coll (Lock NewMongodbMutexes order42 w).2 =
    <[order42 := mkLockDoc 1 (entry_currTime w)]> (coll w) ∧
  (log (Lock NewMongodbMutexes order42 w).2).*2 =
    (log w).*2 ++ [tryLock_request order42 (entry_currTime w)
                     (entry_unlockTime NewMongodbMutexes w)].
Proof.
  apply (Lock_acquires_unlocked NewMongodbMutexes order42
           (world_with (mkLockDoc 0 999999) 100000 []) (mkLockDoc 0 999999));
    reflexivity.
Defined.

Lemma Lock_excludes_within_lease_witness :
  let w := world_with (mkLockDoc 0 7) 100000 (slow 1) in
  let w2 := (Lock NewMongodbMutexes order42 w).2 in
  (Lock three_retries order42 w2).1 = (false, false, None) ∧
  coll (Lock three_retries order42 w2).2 = coll w2.
Proof.
  intros w w2.
  apply (Lock_excludes_within_lease NewMongodbMutexes three_retries order42 w w2).
  - reflexivity.
  - vm_compute. split; [discriminate | reflexivity].
  - reflexivity.
  - reflexivity.
  - vm_compute. split; discriminate.
  - vm_compute. discriminate.
  - reflexivity.
Defined.

Lemma Lock_after_UnlockAll_witness :
  let w := world_with (mkLockDoc 0 7) 100000 (slow 3) in
  let w1 := (Lock NewMongodbMutexes order42 w).2 in
  let w2 := (UnlockAll [order42] w1).2 in
  coll w2 !! order42 = Some (mkLockDoc 0 (entry_currTime w)) ∧
  (Lock three_retries order42 w2).1 = (true, false, None) ∧
  coll (Lock three_retries order42 w2).2 !! order42 =
    Some (mkLockDoc 1 (entry_currTime w2)).
Proof.
  apply (Lock_after_UnlockAll NewMongodbMutexes three_retries order42 [order42]
           (world_with (mkLockDoc 0 7) 100000 (slow 3))).
  - reflexivity.
  - by apply list_elem_of_singleton.
  - reflexivity.
Defined.

Lemma NewAndLock_frame_witness :
  let w := world_with (mkLockDoc 0 7) 100000 [] in
  (NewAndLock order42 w).1.1 = false ∧ coll (NewAndLock order42 w).2 = coll w.
Proof.
  destruct (NewAndLock_frame order42 (world_with (mkLockDoc 0 7) 100000 []))
    as (Hthere & _ & _).
  apply Hthere. by exists (mkLockDoc 0 7).
Defined.

Lemma Lock_absent_then_NewAndLock_witness :
  let w := empty_world 100000 (slow 4) in
  let w1 := (Lock NewMongodbMutexes order42 w).2 in
  let w2 := (NewAndLock order42 w1).2 in
  (Lock NewMongodbMutexes order42 w).1 = (false, true, None) ∧
  (NewAndLock order42 w1).1 = (true, None) ∧
  coll w2 !! order42 = Some (mkLockDoc 1 (entry_currTime w1)) ∧
  (NewAndLock order42 w2).1 = (false, None) ∧
  coll (NewAndLock order42 w2).2 = coll w2.
Proof.
  apply (Lock_absent_then_NewAndLock NewMongodbMutexes order42
           (empty_world 100000 (slow 4))); reflexivity.
Defined.

Lemma Lock_after_NewAndLock_witness :
  let w := empty_world 100000 [] in
  let w2 := (NewAndLock order42 w).2 in
  (Lock NewMongodbMutexes order42 w2).1 = (false, false, None) ∧
  coll (Lock NewMongodbMutexes order42 w2).2 = coll w2.
Proof.
  intros w w2.
  apply (Lock_after_NewAndLock NewMongodbMutexes order42 w w2).
  - reflexivity.
  - vm_compute. split; [discriminate | reflexivity].
  - reflexivity.
  - reflexivity.
  - vm_compute. split; discriminate.
  - vm_compute. discriminate.
  - reflexivity.
Defined.

(** The release of an identity without a record fails; the release of
    [order42] after it is served. *)
Lemma UnlockAll_past_failures_witness :
  let w := world_with (mkLockDoc 1 90000) 100000
             [mkEvent 5 (Some (OtherError "connection reset")); mkEvent 5 None] in
  coll (UnlockAll ["ghost"; order42] w).2 !! order42 = Some (mkLockDoc 0 90000).
Proof.
  apply (UnlockAll_past_failures ["ghost"; order42] 1 order42
           (world_with (mkLockDoc 1 90000) 100000
              [mkEvent 5 (Some (OtherError "connection reset")); mkEvent 5 None])
           (mkLockDoc 1 90000)).
  - reflexivity.
  - intros ev Hev. injection Hev as <-. reflexivity.
  - reflexivity.
Defined.

Lemma sys_steps_keep_identities_witness :
  let w0 := world_with (mkLockDoc 0 0) 100000 [] in
  let s1 := caller_step (caller_at 100000) w0 in
  dom (coll s1.2) = dom (coll w0).
Proof.
  intros w0 s1.
  apply (sys_steps_keep_identities (w0, [caller_at 100000]) (s1.2, [s1.1])).
  apply rtc_once.
  apply (sys_step_caller w0 [] (caller_at 100000) [] s1.1 s1.2).
  apply surjective_pairing.
Defined.

(** The insert of two entities fails: the update is not sent. *)
Lemma SaveAll_stops_at_first_failure_witness :
  SaveAll [("a", 1); ("b", 2)] [("c", 3)]
          (mkStoreWorld [] [Some (OtherError "connection reset")]) =
    (Some (OtherError "connection reset"),
     mkStoreWorld [SReqInsertMany [1; 2]] []).
Proof.
  destruct (SaveAll_stops_at_first_failure (Id := string) (T := Z)
              [("a", 1); ("b", 2)] [("c", 3)]
              (mkStoreWorld [] [Some (OtherError "connection reset")]))
    as [_ Hstop].
  apply (Hstop O (OtherError "connection reset") []); [reflexivity|].
  vm_compute. lia.
Defined.

(** The second delete fails: the third identity is not deleted. *)
Lemma RemoveAll_stops_at_first_failure_witness :
  RemoveAll (T := Z) ["a"; "b"; "c"]
            (mkStoreWorld [] [None; Some (OtherError "connection reset")]) =
    (Some (OtherError "connection reset"),
     mkStoreWorld [SReqDeleteOne "a"; SReqDeleteOne "b"] []).
Proof.
  destruct (RemoveAll_stops_at_first_failure (Id := string) (T := Z)
              ["a"; "b"; "c"]
              (mkStoreWorld [] [None; Some (OtherError "connection reset")]))
    as [_ Hstop].
  apply (Hstop 1%nat (OtherError "connection reset") []); [reflexivity|].
  vm_compute. lia.
Defined.

(** The second of three documents cannot be marshalled. *)
Lemma QueryAllByField_all_or_nothing_witness :
  QueryAllByField (T := list (string * Z)) [] picky_Marshal sample_Unmarshal
    (Some (λ _ _, All_docs [[("_id", 1)]; []; [("_id", 3)]])) "name" 0 =
    (None, Some (OtherError "empty document")).
Proof.
  destruct (QueryAllByField_all_or_nothing (T := list (string * Z)) []
              picky_Marshal sample_Unmarshal
              (λ _ _, All_docs [[("_id", 1)]; []; [("_id", 3)]]) "name" 0
              [[("_id", 1)]; []; [("_id", 3)]] eq_refl) as [_ Hbad].
  apply (Hbad [[("_id", 1)]] [] [[("_id", 3)]] (OtherError "empty document")).
  - reflexivity.
  - constructor; [by exists [] | constructor].
  - reflexivity.
Defined.

(** Two documents are found and the index 0 cannot be marshalled. *)
Lemma QueryAllIds_marshals_indices_witness :
  QueryAllIds (T := Z) 0 int_Marshal (λ _ entity, entity) (λ entity, entity)
              (Some (All_docs [[("_id", 41)]; [("_id", 42)]])) =
    (None, Some (OtherError "an int is not a document")).
Proof.
  destruct (QueryAllIds_marshals_indices (Value := Z) (T := Z) 0 int_Marshal
              (λ _ entity, entity) (λ entity, entity)) as (_ & Hfails & _).
  apply Hfails; [reflexivity | discriminate].
Defined.

Lemma Load_outcomes_witness :
  sample_Load None order42 = ([], false, None).
Proof.
  destruct (Load_outcomes (T := list (string * Z)) [] [("_id", 0)]
              sample_Marshal sample_Unmarshal
              (∅ : gmap string (bsonD (Value := Z))) order42) as (_ & Hnone & _).
  apply Hnone. reflexivity.
Defined.

Lemma mutexes_collection_apart_witness :
  mutexes_collection "orders" ≠ "orders" ∧ "orders" = "orders".
Proof.
  destruct (mutexes_collection_apart "orders" "orders") as [Hne Hinj].
  split; [exact Hne | apply Hinj; reflexivity].
Defined.

End MoreExamples.
